(** * url-get: fetch and decode YAML or JSON content at local or remote URLs

    A shallow embedding of [index.js] and a verification of its
    documented behaviour.

    Conventions of the embedding.
    - A JavaScript string is a Rocq [string] whose characters are the
      code units of the string; code units above U+00FF are outside the
      model.  Concatenation is [+:+].
    - [undefined] for an optional string argument is [None].
    - A promise is a computation over an explicit [World] (the heap of
      mutable objects and the log of calls made to collaborators) that
      settles as [Resolved] or [Rejected].  A function that throws before
      it returns its promise ends in [Rejected (Thrown e)]; inside a
      promise handler such a throw rejects the promise of the handler
      with [e], as in JavaScript ([in_handler]).
    - The collaborators the module imports ([fs.readFile], [preq.get],
      [yaml.safeLoad], [Buffer.toString], [URL], [process.cwd]) are the
      methods of the class [Collaborators]; what is taken for granted of
      them is stated there. *)

From Stdlib Require Import ZArith Ascii Lia.
From stdpp Require Import gmap strings list.

(* ================================================================== *)
(** ** JavaScript built-ins used by the module *)

Module JS.

(** [!s] for a string: only the empty string is falsy. *)
Definition falsy (s : string) : bool :=
  match s with EmptyString => true | String _ _ => false end.

(** Truthiness of an optional string argument ([undefined] is falsy). *)
Definition truthy (o : option string) : bool :=
  match o with None => false | Some s => negb (falsy s) end.

(** [a + b] for a string [a] and an optional string [b]; [undefined]
    converts to the text [undefined]. *)
Definition concat (a : string) (b : option string) : string :=
  match b with None => a +:+ "undefined" | Some s => a +:+ s end.

(** [b + a] for an optional string [b] and a string [a]. *)
Definition concat_left (b : option string) (a : string) : string :=
  match b with None => "undefined" +:+ a | Some s => s +:+ a end.

(** [s.startsWith(p)]. *)
Definition startsWith (s p : string) : bool := String.prefix p s.

(** [s.split(sep)] for a separator of one character.  The result is
    never empty: splitting the empty string gives one empty part. *)
Fixpoint split (sep : ascii) (s : string) : list string :=
  match s with
  | EmptyString => [EmptyString]
  | String c s' =>
      if Ascii.eqb c sep then EmptyString :: split sep s'
      else match split sep s' with
           | p :: ps => String c p :: ps
           | [] => [String c EmptyString]
           end
  end.

(** [parts[parts.length - 1]] on an array of strings ([undefined], which
    cannot occur after [split], reads as the empty string here). *)
Definition last_part (parts : list string) : string :=
  default EmptyString (last parts).

(** *** [isNaN] on strings

    [isNaN(s)] converts [s] with ToNumber and tests for NaN.  For a
    string ToNumber is NaN exactly when the string is not a
    StringNumericLiteral (ECMAScript, StringToNumber), so [isNaN] is the
    negation of a recogniser of that grammar. *)

Definition in_range (lo hi c : ascii) : bool :=
  Ascii.leb lo c && Ascii.leb c hi.

Definition isDecimalDigit (c : ascii) : bool := in_range "0" "9" c.
Definition isBinaryDigit (c : ascii) : bool := in_range "0" "1" c.
Definition isOctalDigit (c : ascii) : bool := in_range "0" "7" c.
Definition isHexDigit (c : ascii) : bool :=
  in_range "0" "9" c || in_range "a" "f" c || in_range "A" "F" c.

(** WhiteSpace and LineTerminator code units up to U+00FF: TAB, LF, VT,
    FF, CR, SP and NBSP. *)
Definition isStrWhiteSpaceChar (c : ascii) : bool :=
  match c with
  | "009" | "010" | "011" | "012" | "013" | " " | "160" => true
  | _ => false
  end%char.

Fixpoint all_chars (p : ascii -> bool) (s : string) : bool :=
  match s with
  | EmptyString => true
  | String c s' => p c && all_chars p s'
  end.

(** One or more characters, all satisfying [p]. *)
Definition some_chars (p : ascii -> bool) (s : string) : bool :=
  negb (falsy s) && all_chars p s.

(** The longest prefix of characters satisfying [p], and the rest. *)
Fixpoint span (p : ascii -> bool) (s : string) : string * string :=
  match s with
  | EmptyString => (EmptyString, EmptyString)
  | String c s' =>
      if p c then let '(a, b) := span p s' in (String c a, b)
      else (EmptyString, s)
  end.

Fixpoint trimStart (s : string) : string :=
  match s with
  | EmptyString => EmptyString
  | String c s' => if isStrWhiteSpaceChar c then trimStart s' else s
  end.

Fixpoint trimEnd (s : string) : string :=
  match s with
  | EmptyString => EmptyString
  | String c s' =>
      match trimEnd s' with
      | EmptyString =>
          if isStrWhiteSpaceChar c then EmptyString else String c EmptyString
      | t => String c t
      end
  end.

Definition trim (s : string) : string := trimEnd (trimStart s).

Definition is_sign (c : ascii) : bool := Ascii.eqb c "+" || Ascii.eqb c "-".

Definition is_exponent_indicator (c : ascii) : bool :=
  Ascii.eqb c "e" || Ascii.eqb c "E".

(** The string after its sign, if it starts with one. *)
Definition strip_sign (s : string) : string :=
  match s with
  | String c r => if is_sign c then r else s
  | EmptyString => EmptyString
  end.

(** SignedInteger: DecimalDigits with an optional sign. *)
Definition isSignedInteger (s : string) : bool :=
  some_chars isDecimalDigit (strip_sign s).

(** ExponentPart, optional: nothing, or [e]/[E] and a SignedInteger. *)
Definition isExponentPart_opt (s : string) : bool :=
  match s with
  | EmptyString => true
  | String c r => is_exponent_indicator c && isSignedInteger r
  end.

(** StrUnsignedDecimalLiteral: [Infinity], [d+ . d* exp?], [. d+ exp?]
    or [d+ exp?]. *)
Definition isStrUnsignedDecimalLiteral (s : string) : bool :=
  String.eqb s "Infinity" ||
  let '(int, r) := span isDecimalDigit s in
  match r with
  | String c r' =>
      if Ascii.eqb c "." then
        let '(frac, e) := span isDecimalDigit r' in
        (negb (falsy int) || negb (falsy frac)) && isExponentPart_opt e
      else negb (falsy int) && isExponentPart_opt r
  | EmptyString => negb (falsy int)
  end.

(** StrDecimalLiteral: an optional sign before the unsigned literal. *)
Definition isStrDecimalLiteral (s : string) : bool :=
  isStrUnsignedDecimalLiteral (strip_sign s).

(** NonDecimalIntegerLiteral: [0b], [0o] or [0x] (either case) and one or
    more digits of that base; no sign. *)
Definition isNonDecimalIntegerLiteral (s : string) : bool :=
  match s with
  | String z (String b r) =>
      Ascii.eqb z "0" &&
      ((Ascii.eqb b "b" || Ascii.eqb b "B") && some_chars isBinaryDigit r
       || (Ascii.eqb b "o" || Ascii.eqb b "O") && some_chars isOctalDigit r
       || (Ascii.eqb b "x" || Ascii.eqb b "X") && some_chars isHexDigit r)
  | _ => false
  end.

(** StringNumericLiteral: white space only (the number 0), or a numeric
    literal with white space allowed on both sides. *)
Definition isStringNumericLiteral (s : string) : bool :=
  let t := trim s in
  falsy t || isStrDecimalLiteral t || isNonDecimalIntegerLiteral t.

Definition isNaN (s : string) : bool := negb (isStringNumericLiteral s).

End JS.

(* ================================================================== *)
(** ** Regular expressions

    The fragment of JavaScript regular expressions the module uses:
    character classes, concatenation and repetition, matched at the
    start of the input ([^]).  [test] is by Brzozowski derivatives. *)

Module RegExp.

Inductive class_item : Type :=
| Single (c : ascii)
| Range (lo hi : ascii).

Inductive regex : Type :=
| Void
| Eps
| Class (items : list class_item)
| Cat (r1 r2 : regex)
| Alt (r1 r2 : regex)
| Star (r : regex).

(** A literal character, and [r+]. *)
Definition Chr (c : ascii) : regex := Class [Single c].
Definition Plus (r : regex) : regex := Cat r (Star r).

Definition item_matches (c : ascii) (i : class_item) : bool :=
  match i with
  | Single d => Ascii.eqb c d
  | Range lo hi => Ascii.leb lo c && Ascii.leb c hi
  end.

Definition in_class (items : list class_item) (c : ascii) : bool :=
  existsb (item_matches c) items.

Fixpoint nullable (r : regex) : bool :=
  match r with
  | Void => false
  | Eps => true
  | Class _ => false
  | Cat r1 r2 => nullable r1 && nullable r2
  | Alt r1 r2 => nullable r1 || nullable r2
  | Star _ => true
  end.

Fixpoint deriv (c : ascii) (r : regex) : regex :=
  match r with
  | Void => Void
  | Eps => Void
  | Class items => if in_class items c then Eps else Void
  | Cat r1 r2 =>
      if nullable r1 then Alt (Cat (deriv c r1) r2) (deriv c r2)
      else Cat (deriv c r1) r2
  | Alt r1 r2 => Alt (deriv c r1) (deriv c r2)
  | Star r1 => Cat (deriv c r1) (Star r1)
  end.

(** [/^r/.test(s)]: some prefix of [s] matches [r]. *)
Fixpoint test (r : regex) (s : string) : bool :=
  nullable r ||
  match s with
  | EmptyString => false
  | String c s' => test (deriv c r) s'
  end.

(** The strings a regex matches in full. *)
Inductive Matches : regex -> string -> Prop :=
| M_Eps : Matches Eps EmptyString
| M_Class items c :
    in_class items c = true -> Matches (Class items) (String c EmptyString)
| M_Cat r1 r2 s1 s2 :
    Matches r1 s1 -> Matches r2 s2 -> Matches (Cat r1 r2) (s1 +:+ s2)
| M_Alt_l r1 r2 s : Matches r1 s -> Matches (Alt r1 r2) s
| M_Alt_r r1 r2 s : Matches r2 s -> Matches (Alt r1 r2) s
| M_Star_nil r : Matches (Star r) EmptyString
| M_Star_cons r s1 s2 :
    Matches r s1 -> Matches (Star r) s2 -> Matches (Star r) (s1 +:+ s2).

End RegExp.

(* ================================================================== *)
(** ** Node's [path] module (POSIX) *)

Module Path.

Definition is_sep (c : ascii) : bool := Ascii.eqb c "/".

Definition chars (s : string) : list ascii := String.list_ascii_of_string s.
Definition text (l : list ascii) : string := String.string_of_list_ascii l.

Fixpoint skip_seps (l : list ascii) : list ascii :=
  match l with
  | c :: l' => if is_sep c then skip_seps l' else l
  | [] => []
  end.

Fixpoint until_sep (l : list ascii) : list ascii :=
  match l with
  | c :: l' => if is_sep c then [] else c :: until_sep l'
  | [] => []
  end.

(** [path.basename(p)]: scanning from the end, trailing separators are
    skipped, and the component runs back to the separator before it. *)
Definition basename (p : string) : string :=
  text (rev (until_sep (skip_seps (rev (chars p))))).

(** [path.isAbsolute(p)]. *)
Definition isAbsolute (p : string) : bool :=
  match p with String "/" _ => true | _ => false end.

(** Normalisation of the segments of a path: empty segments and [.] are
    dropped, [..] removes the segment before it; above the root [..] is
    dropped, unless [allowAboveRoot], which keeps it.  [stack] holds the
    segments kept so far, last first. *)
Fixpoint normalizeSegments (allowAboveRoot : bool) (segs stack : list string)
  : list string :=
  match segs with
  | [] => rev stack
  | seg :: rest =>
      if String.eqb seg "" || String.eqb seg "." then
        normalizeSegments allowAboveRoot rest stack
      else if String.eqb seg ".." then
        match stack with
        | top :: below =>
            if allowAboveRoot && String.eqb top ".." then
              normalizeSegments allowAboveRoot rest (seg :: stack)
            else normalizeSegments allowAboveRoot rest below
        | [] =>
            if allowAboveRoot then
              normalizeSegments allowAboveRoot rest [seg]
            else normalizeSegments allowAboveRoot rest []
        end
      else normalizeSegments allowAboveRoot rest (seg :: stack)
  end.

Fixpoint join (segs : list string) : string :=
  match segs with
  | [] => ""
  | [seg] => seg
  | seg :: rest => seg +:+ "/" +:+ join rest
  end.

Definition normalizeString (p : string) (allowAboveRoot : bool) : string :=
  join (normalizeSegments allowAboveRoot (JS.split "/" p) []).

(** [path.resolve(p)] with one argument, in the working directory
    [cwd]: [p] if it is absolute, else [cwd/p], normalised. *)
Definition resolve (cwd p : string) : string :=
  let '(resolvedPath, resolvedAbsolute) :=
    if JS.falsy p then ("", false) else (p +:+ "/", isAbsolute p) in
  let '(resolvedPath, resolvedAbsolute) :=
    if resolvedAbsolute then (resolvedPath, true)
    else if JS.falsy cwd then (resolvedPath, false)
    else (cwd +:+ "/" +:+ resolvedPath, isAbsolute cwd) in
  let normal := normalizeString resolvedPath (negb resolvedAbsolute) in
  if resolvedAbsolute then "/" +:+ normal
  else if JS.falsy normal then "." else normal.

End Path.

(* ================================================================== *)
(** ** Values, the world and promises *)

(** Heap addresses of mutable objects. *)
Definition loc : Type := positive.

(** JavaScript values, as far as the module tells them apart.  Objects
    and functions are references; a Buffer carries its bytes. *)
Inductive JSValue : Type :=
| JUndefined
| JNull
| JBoolean (b : bool)
| JNumber (n : Z)
| JString (s : string)
| JBuffer (bytes : list Byte.byte)
| JObject (ref : loc)
| JFunction (ref : loc).

(** An HTTP response: what [preq] resolves with, or what its
    [HTTPError] carries. *)
Record Response : Type := mkResponse { status : Z; body : JSValue }.

(** What a promise is rejected with (or what is thrown). *)
Inductive Reason : Type :=
| NoReason
  (** [P.reject()]: rejected with [undefined] *)
| ErrorNew (message : string)
  (** [new Error(message)], constructed by this module *)
| Foreign (e : JSValue)
  (** whatever a collaborator threw or rejected with *)
| HTTPError (response : Response)
  (** the error [preq] rejects with for a response it does not accept *)
| Thrown (e : JSValue)
  (** [e] thrown by the call of a function before the function returned
      its promise: the caller gets an exception, not a rejected promise *).

(** How a call ends.  For a function that returns a promise:
    [Resolved a] and [Rejected r] are the promise it returned, settled,
    except for [Rejected (Thrown e)], where the call threw [e] and
    returned nothing.  For a function that returns a plain value:
    [Resolved a] is the value returned and [Rejected r] what was
    thrown. *)
Inductive Outcome (A : Type) : Type :=
| Resolved (a : A)
| Rejected (r : Reason).
Arguments Resolved {A} a.
Arguments Rejected {A} r.

(** Calls made to the I/O collaborators, with the fields the options
    object held at the time of the call. *)
Inductive Event : Type :=
| ReadFile (path : string) (options : gmap string JSValue)
| HttpGet (options : gmap string JSValue).

(** The heap holds the mutable objects of the caller: an object is the
    map of its fields. *)
Record World : Type := mkWorld {
  heap : gmap loc (gmap string JSValue);
  log : list Event
}.

(** The object a value refers to, if it is a reference. *)
Definition reference (v : JSValue) : option loc :=
  match v with
  | JObject ref | JFunction ref => Some ref
  | _ => None
  end.

(** The objects that can be reached from the object at [root] by
    following fields. *)
Inductive reachable (h : gmap loc (gmap string JSValue)) (root : loc)
  : loc -> Prop :=
| reachable_root : reachable h root root
| reachable_field l o k v l' :
    reachable h root l -> h !! l = Some o -> o !! k = Some v ->
    reference v = Some l' -> reachable h root l'.

(** *** File URLs whose path the URL parser copies

    [new URL(url).pathname] percent-encodes the path of the url.  For a
    path made of unreserved characters, slashes and spaces, without
    [.] or [..] segments and not ending in a space, the only change is
    that each space becomes [%20]. *)
Module URL.

Definition is_unreserved (c : ascii) : bool :=
  JS.in_range "a" "z" c || JS.in_range "A" "Z" c || JS.in_range "0" "9" c ||
  Ascii.eqb c "-" || Ascii.eqb c "." || Ascii.eqb c "_" || Ascii.eqb c "~".

Definition is_simple_char (c : ascii) : bool :=
  is_unreserved c || Ascii.eqb c "/" || Ascii.eqb c " ".

Definition is_dot_segment (segment : string) : bool :=
  String.eqb segment "." || String.eqb segment "..".

Fixpoint ends_with (c : ascii) (s : string) : bool :=
  match s with
  | EmptyString => false
  | String d EmptyString => Ascii.eqb d c
  | String _ s' => ends_with c s'
  end.

Definition simple_path (path : string) : bool :=
  JS.startsWith path "/" &&
  JS.all_chars is_simple_char path &&
  forallb (fun segment => negb (is_dot_segment segment)) (JS.split "/" path) &&
  negb (ends_with " " path).

Fixpoint encode_spaces (path : string) : string :=
  match path with
  | EmptyString => EmptyString
  | String c path' =>
      if Ascii.eqb c " " then "%20" +:+ encode_spaces path'
      else String c (encode_spaces path')
  end.

End URL.

(** The imported collaborators: what [fs.readFile] reads for a path and
    options, what the HTTP exchange behind [preq.get] gives and which
    statuses [preq] accepts, what [yaml.safeLoad] makes of a text,
    [buffer.toString('utf-8')], [new URL(url).pathname] and
    [process.cwd()].  An I/O collaborator may answer differently from
    one call to the next: it is given the log of the calls made so far.
    [inl] is a result, [inr] what was thrown or what the promise was
    rejected with.

    [preq.get(options)] is handed the options object itself and writes
    into it ([method], [headers], [timeout] and more) and into the
    objects it holds (the entries of [options.headers]): [http_get] is
    given the heap and the address of the object, and returns the heap
    as the client leaves it, with the response of the exchange or the
    I/O error.

    What is taken for granted of the collaborators:
    - the working directory is an absolute path;
    - the HTTP client changes no object of the caller that cannot be
      reached from the options object, and makes no such object
      reachable from it;
    - [preq] resolves with a response of status 2xx and rejects with an
      [HTTPError] for one of status 400 or above;
    - the URL parser gives the path of a simple file URL with its spaces
      percent-encoded. *)
Class Collaborators : Type := {
  fs_readFile : list Event -> string -> gmap string JSValue -> JSValue + JSValue;
  http_get :
    list Event -> gmap loc (gmap string JSValue) -> loc ->
    (Response + JSValue) * gmap loc (gmap string JSValue);
  preq_accepts : Z -> bool;
  yaml_safeLoad : string -> JSValue + JSValue;
  Buffer_toString : list Byte.byte -> string;
  URL_pathname : string -> string + JSValue;
  process_cwd : string;
  process_cwd_absolute : Path.isAbsolute process_cwd = true;
  http_get_frame : forall lg h l l' o,
    h !! l' = Some o -> ~ reachable h l l' ->
    (http_get lg h l).2 !! l' = Some o;
  http_get_confined : forall lg h l l',
    is_Some (h !! l') -> reachable (http_get lg h l).2 l l' ->
    reachable h l l';
  preq_accepts_2xx : forall status,
    (200 <= status < 300)%Z -> preq_accepts status = true;
  preq_rejects_errors : forall status,
    (400 <= status)%Z -> preq_accepts status = false;
  URL_pathname_simple : forall path,
    URL.simple_path path = true ->
    URL_pathname ("file://" +:+ path) = inl (URL.encode_spaces path)
}.

Definition settle {A : Type} (r : A + JSValue) : Outcome A :=
  match r with
  | inl a => Resolved a
  | inr e => Rejected (Foreign e)
  end.

Definition Promise (A : Type) : Type := World -> Outcome A * World.

#[global] Instance promise_ret : MRet Promise :=
  fun A a w => (Resolved a, w).

(** [p.then(f)], and one step of a function body after another. *)
#[global] Instance promise_bind : MBind Promise :=
  fun A B f p w =>
    match p w with
    | (Resolved a, w') => f a w'
    | (Rejected r, w') => (Rejected r, w')
    end.

(** [P.reject(r)]. *)
Definition reject {A : Type} (r : Reason) : Promise A :=
  fun w => (Rejected r, w).

(** A call made inside a promise handler: what the call throws rejects
    the promise of the handler. *)
Definition in_handler {A : Type} (p : Promise A) : Promise A :=
  fun w =>
    match p w with
    | (Rejected (Thrown e), w') => (Rejected (Foreign e), w')
    | settled => settled
    end.

(** [p.catch(h)]. *)
Definition catch {A : Type} (p : Promise A) (h : Reason -> Promise A)
  : Promise A :=
  fun w =>
    match p w with
    | (Resolved a, w') => (Resolved a, w')
    | (Rejected r, w') => in_handler (h r) w'
    end.

(** A synchronous computation inside a promise handler: it returns, or
    what it throws rejects the promise. *)
Definition sync {A : Type} (o : Outcome A) : Promise A := fun w => (o, w).

(** A synchronous step of a function body, outside any handler: it
    returns, or the function throws. *)
Definition throwing {A : Type} (r : A + JSValue) : Promise A :=
  fun w =>
    (match r with
     | inl a => Resolved a
     | inr e => Rejected (Thrown e)
     end, w).

(** The fields of the object at [l]. *)
Definition fields_of (l : loc) (w : World) : gmap string JSValue :=
  default ∅ (heap w !! l).

(** A new object [{}] with the given fields. *)
Definition alloc (o : gmap string JSValue) : Promise loc :=
  fun w =>
    let l := fresh (dom (heap w)) in
    (Resolved l, mkWorld (<[l := o]> (heap w)) (log w)).

(** [l.k = v]. *)
Definition set_field (l : loc) (k : string) (v : JSValue) : Promise unit :=
  fun w =>
    (Resolved tt, mkWorld (<[l := <[k := v]> (fields_of l w)]> (heap w)) (log w)).

(** The default parameter [options = {}]. *)
Definition default_options (options : option loc) : Promise loc :=
  match options with
  | Some l => mret l
  | None => alloc ∅
  end.

(** An argument that is either an array or a single value. *)
Inductive MaybeArray (A : Type) : Type :=
| NotArray (a : A)
| IsArray (l : list A).
Arguments NotArray {A} a.
Arguments IsArray {A} l.

(** [if (!_.isArray(xs)) { xs = [xs]; }]. *)
Definition ensure_array {A : Type} (xs : MaybeArray A) : list A :=
  match xs with
  | NotArray a => [a]
  | IsArray l => l
  end.

(** [typeof v]. *)
Definition typeof (v : JSValue) : string :=
  match v with
  | JUndefined => "undefined"
  | JNull => "object"
  | JBoolean _ => "boolean"
  | JNumber _ => "number"
  | JString _ => "string"
  | JBuffer _ => "object"
  | JObject _ => "object"
  | JFunction _ => "function"
  end.

Definition is_nullish (v : JSValue) : bool :=
  match v with JUndefined | JNull => true | _ => false end.

(** lodash's [_.isObject]: not [null] or [undefined], and of type object
    or function. *)
Definition isObject (v : JSValue) : bool :=
  negb (is_nullish v) &&
  (String.eqb (typeof v) "object" || String.eqb (typeof v) "function").

(* ================================================================== *)
(** ** The module [index.js] *)

Section UrlGet.
Context `{Collaborators}.

Definition readFile (path : string) (options : loc) : Promise JSValue :=
  fun w =>
    let o := fields_of options w in
    (settle (fs_readFile (log w) path o),
     mkWorld (heap w) (log w ++ [ReadFile path o])).

(** [preq.get(options)]: the exchange is made with the object as the
    caller holds it; the client leaves the heap as [http_get] says, and
    settles by the status of the response. *)
Definition preq_get (options : loc) : Promise Response :=
  fun w =>
    let o := fields_of options w in
    let exchange := http_get (log w) (heap w) options in
    (match exchange.1 with
     | inl response =>
         if preq_accepts (status response) then Resolved response
         else Rejected (HTTPError response)
     | inr e => Rejected (Foreign e)
     end,
     mkWorld exchange.2 (log w ++ [HttpGet o])).

Definition convert_error_message : string :=
  "Could not convert data into an object.  " +:+
  "Data must be a utf-8 byte buffer or a YAML/JSON string".

(** The second half of [objectFactory]: a string is parsed, anything
    else is refused. *)
Definition safeLoad_if_string (data : JSValue) : Outcome JSValue :=
  match data with
  | JString s => settle (yaml_safeLoad s)
  | _ => Rejected (ErrorNew convert_error_message)
  end.

Definition objectFactory (data : JSValue) : Outcome JSValue :=
  match data with
  | JBuffer bytes => safeLoad_if_string (JString (Buffer_toString bytes))
  | _ => if isObject data then Resolved data else safeLoad_if_string data
  end.

(** [/^[a-zA-Z0-9+.-]+:\/\//]. *)
Definition uriProtocolRegex : RegExp.regex :=
  RegExp.Cat
    (RegExp.Plus
       (RegExp.Class
          [RegExp.Range "a" "z"; RegExp.Range "A" "Z"; RegExp.Range "0" "9";
           RegExp.Single "+"; RegExp.Single "."; RegExp.Single "-"]))
    (RegExp.Cat (RegExp.Chr ":") (RegExp.Cat (RegExp.Chr "/") (RegExp.Chr "/"))).

Definition uriHasProtocol (uri : string) : bool :=
  RegExp.test uriProtocolRegex uri.

Definition fileExtension (filename : option string) : string :=
  match filename with
  | None => ""
  | Some filename =>
      if JS.falsy filename then ""
      else
        let parts := JS.split "." (Path.basename filename) in
        if (1 <? length parts) && JS.isNaN (JS.last_part parts)
        then JS.last_part parts
        else ""
  end.

Definition resolveUri (uri : string) (baseUri defaultFileExtension : option string)
  : string :=
  let url := uri in
  let url :=
    if JS.falsy (fileExtension (Some uri)) && JS.truthy defaultFileExtension
    then JS.concat uri defaultFileExtension
    else url in
  let url :=
    if JS.truthy baseUri && negb (uriHasProtocol url)
    then JS.concat_left baseUri url
    else url in
  let url :=
    if negb (uriHasProtocol url)
    then "file://" +:+ Path.resolve process_cwd url
    else url in
  url.

Definition urlGet (url : string) (options : option loc) : Promise JSValue :=
  options ← default_options options;
  if negb (uriHasProtocol url) then
    readFile url options
  else if JS.startsWith url "file://" then
    pathname ← throwing (URL_pathname url);
    readFile pathname options
  else
    _ ← set_field options "uri" (JString url);
    res ← preq_get options;
    mret (body res).

Definition urlGetObject (url : string) (options : option loc) : Promise JSValue :=
  options ← default_options options;
  content ← urlGet url (Some options);
  sync (objectFactory content).

Definition urlGetFirstObject (urls : MaybeArray string) (options : option loc)
  : Promise JSValue :=
  options ← default_options options;
  let urls := ensure_array urls in
  fold_left
    (fun promise url => catch promise (fun _ => urlGetObject url (Some options)))
    urls
    (reject NoReason).

Definition uriGetFirstObject (uri : string) (baseUris : MaybeArray (option string))
    (defaultFileExtension : option string) (options : option loc)
  : Promise JSValue :=
  options ← default_options options;
  let baseUris := ensure_array baseUris in
  let urls :=
    map (fun baseUri => resolveUri uri baseUri defaultFileExtension) baseUris in
  urlGetFirstObject (IsArray urls) (Some options).

End UrlGet.

(* ================================================================== *)
(** ** Vocabulary of the specification *)

(** *** What it is for a string to convert to a number

    The grammar StringNumericLiteral of ECMAScript (StringToNumber), as
    productions; ToNumber of a string is a number, and not NaN, exactly
    when the string derives from it. *)
Module Numeric.

(** One or more characters of a class of digits. *)
Inductive Digits (digit : ascii -> bool) : string -> Prop :=
| Digits_one c : digit c = true -> Digits digit (String c "")
| Digits_more c s :
    digit c = true -> Digits digit s -> Digits digit (String c s).

Inductive Optional (P : string -> Prop) : string -> Prop :=
| Absent : Optional P ""
| Present s : P s -> Optional P s.

Inductive SignedInteger : string -> Prop :=
| SI_digits d : Digits JS.isDecimalDigit d -> SignedInteger d
| SI_plus d : Digits JS.isDecimalDigit d -> SignedInteger ("+" +:+ d)
| SI_minus d : Digits JS.isDecimalDigit d -> SignedInteger ("-" +:+ d).

Inductive ExponentPart : string -> Prop :=
| Exponent_e i : SignedInteger i -> ExponentPart ("e" +:+ i)
| Exponent_E i : SignedInteger i -> ExponentPart ("E" +:+ i).

Inductive StrUnsignedDecimalLiteral : string -> Prop :=
| Unsigned_Infinity : StrUnsignedDecimalLiteral "Infinity"
| Unsigned_int_frac i f e :
    Digits JS.isDecimalDigit i -> Optional (Digits JS.isDecimalDigit) f ->
    Optional ExponentPart e ->
    StrUnsignedDecimalLiteral (i +:+ "." +:+ f +:+ e)
| Unsigned_frac f e :
    Digits JS.isDecimalDigit f -> Optional ExponentPart e ->
    StrUnsignedDecimalLiteral ("." +:+ f +:+ e)
| Unsigned_int i e :
    Digits JS.isDecimalDigit i -> Optional ExponentPart e ->
    StrUnsignedDecimalLiteral (i +:+ e).

Inductive StrDecimalLiteral : string -> Prop :=
| Decimal_unsigned u : StrUnsignedDecimalLiteral u -> StrDecimalLiteral u
| Decimal_plus u : StrUnsignedDecimalLiteral u -> StrDecimalLiteral ("+" +:+ u)
| Decimal_minus u : StrUnsignedDecimalLiteral u -> StrDecimalLiteral ("-" +:+ u).

Inductive NonDecimalIntegerLiteral : string -> Prop :=
| Binary_b d : Digits JS.isBinaryDigit d -> NonDecimalIntegerLiteral ("0b" +:+ d)
| Binary_B d : Digits JS.isBinaryDigit d -> NonDecimalIntegerLiteral ("0B" +:+ d)
| Octal_o d : Digits JS.isOctalDigit d -> NonDecimalIntegerLiteral ("0o" +:+ d)
| Octal_O d : Digits JS.isOctalDigit d -> NonDecimalIntegerLiteral ("0O" +:+ d)
| Hex_x d : Digits JS.isHexDigit d -> NonDecimalIntegerLiteral ("0x" +:+ d)
| Hex_X d : Digits JS.isHexDigit d -> NonDecimalIntegerLiteral ("0X" +:+ d).

Inductive StrNumericLiteral : string -> Prop :=
| Numeric_decimal s : StrDecimalLiteral s -> StrNumericLiteral s
| Numeric_non_decimal s : NonDecimalIntegerLiteral s -> StrNumericLiteral s.

(** Zero or more white space characters. *)
Inductive StrWhiteSpace_opt : string -> Prop :=
| WhiteSpace_none : StrWhiteSpace_opt ""
| WhiteSpace_more c s :
    JS.isStrWhiteSpaceChar c = true -> StrWhiteSpace_opt s ->
    StrWhiteSpace_opt (String c s).

Inductive StringNumericLiteral : string -> Prop :=
| Literal_blank w : StrWhiteSpace_opt w -> StringNumericLiteral w
| Literal_number w1 n w2 :
    StrWhiteSpace_opt w1 -> StrNumericLiteral n -> StrWhiteSpace_opt w2 ->
    StringNumericLiteral (w1 +:+ n +:+ w2).

(** What follows a maximal run of a class: nothing, or a character
    outside the class. *)
Definition stops (p : ascii -> bool) (s : string) : Prop :=
  match s with
  | EmptyString => True
  | String c _ => p c = false
  end.

Definition not_white_space (c : ascii) : bool :=
  negb (JS.isStrWhiteSpaceChar c).

End Numeric.

(** The characters a scheme is drawn from: [A-Za-z0-9+.-]. *)
Definition scheme_alphabet : string :=
  "ABCDEFGHIJKLMNOPQRSTUVWXYZabcdefghijklmnopqrstuvwxyz0123456789+.-".

Definition is_scheme_char (c : ascii) : bool :=
  existsb (Ascii.eqb c) (String.list_ascii_of_string scheme_alphabet).

(** The resolution algorithm as the specification words it, step by
    step; an argument is "provided" when it is not [undefined].
    1. start from the identifier;
    2. if its extension is empty and a default extension is provided,
       append the default extension;
    3. if a base location is provided and the string has no protocol,
       prepend the base location;
    4. if the string still has no protocol, resolve it to an absolute
       path and prefix it with [file://]. *)
Definition resolve_by_steps `{Collaborators}
    (identifier : string) (baseLocation defaultExtension : option string)
  : string :=
  let url := identifier in
  let url :=
    match defaultExtension with
    | Some ext =>
        if String.eqb (fileExtension (Some identifier)) "" then identifier +:+ ext
        else url
    | None => url
    end in
  let url :=
    match baseLocation with
    | Some base => if uriHasProtocol url then url else base +:+ url
    | None => url
    end in
  if uriHasProtocol url then url
  else "file://" +:+ Path.resolve process_cwd url.

(** The fallback loop as the specification words it: the candidates are
    tried one after the other, the first success is returned, and the
    error of the last failure is kept for when none succeeds.  An
    attempt is the call of [urlGetObject] that the [catch] handler of
    the fold makes. *)
Fixpoint try_in_order `{Collaborators}
    (urls : list string) (options : loc) (last_error : Reason)
  : Promise JSValue :=
  match urls with
  | [] => reject last_error
  | url :: rest =>
      fun w =>
        match in_handler (urlGetObject url (Some options)) w with
        | (Resolved v, w') => (Resolved v, w')
        | (Rejected e, w') => try_in_order rest options e w'
        end
  end.

(** Every candidate of a list attempted in turn, whatever the outcomes:
    the outcomes in order, and the world after the last attempt.  An
    attempt is the call of [urlGetObject] that the [catch] handler of
    the fold makes. *)
Fixpoint attempt_all `{Collaborators}
    (urls : list string) (options : loc) (w : World)
  : list (Outcome JSValue) * World :=
  match urls with
  | [] => ([], w)
  | url :: rest =>
      let '(o, w1) := in_handler (urlGetObject url (Some options)) w in
      let '(os, w2) := attempt_all rest options w1 in
      (o :: os, w2)
  end.

Definition failed {A : Type} (o : Outcome A) : Prop :=
  exists e, o = Rejected e.

(** The options a collaborator was called with. *)
Definition event_options (e : Event) : gmap string JSValue :=
  match e with
  | ReadFile _ o => o
  | HttpGet o => o
  end.

(** An object the call cannot touch: one the caller holds that cannot
    be reached from the options object. *)
Definition out_of_reach (options : loc) (w : World) (l : loc) : Prop :=
  is_Some (heap w !! l) /\ ~ reachable (heap w) options l.

(** A string without the character [c]. *)
Definition lacks (c : ascii) (s : string) : bool :=
  JS.all_chars (fun d => negb (Ascii.eqb d c)) s.

(** A candidate that [urlGet] fetches over HTTP: it has a protocol and
    does not start with [file://]. *)
Definition is_remote (url : string) : bool :=
  uriHasProtocol url && negb (JS.startsWith url "file://").

(** The last remote candidate of a list, if it has one. *)
Fixpoint last_remote (urls : list string) : option string :=
  match urls with
  | [] => None
  | url :: rest =>
      match last_remote rest with
      | Some u => Some u
      | None => if is_remote url then Some url else None
      end
  end.

(** An HTTP client that leaves the field [uri] of the object it is
    handed as it finds it, as [preq] does. *)
Definition client_keeps_uri `{Collaborators} : Prop :=
  forall lg h l,
    default ∅ ((http_get lg h l).2 !! l) !! "uri"
    = default ∅ (h !! l) !! "uri".

(** ** A small world to run the module in

    One YAML file on disk, one document on the network and one address
    that answers 404, an HTTP client that leaves the heap as it is, a
    YAML parser that knows the document, and a URL parser that accepts
    the simple file URLs. *)
Module Demo.

Definition document : string := "a: A".
Definition decoded : JSValue := JObject 7%positive.

Definition collaborators : Collaborators := {|
  fs_readFile := fun _ path _ =>
    if String.eqb path "/tmp/_mocha_test_file.yaml" then inl (JString document)
    else inr (JString ("ENOENT: " +:+ path));
  http_get := fun _ h l =>
    (match default ∅ (h !! l) !! "uri" with
     | Some (JString "http://example.org/doc.yaml") =>
         inl (mkResponse 200 (JString document))
     | Some (JString "http://example.org/missing.yaml") =>
         inl (mkResponse 404 (JString "Not Found"))
     | _ => inr (JString "ECONNREFUSED")
     end, h);
  preq_accepts := fun status => (status <? 400)%Z;
  yaml_safeLoad := fun s =>
    if String.eqb s document then inl decoded else inr (JString "YAMLException");
  Buffer_toString := String.string_of_list_byte;
  URL_pathname := fun url =>
    match url with
    | String "f" (String "i" (String "l" (String "e" (String ":"
        (String "/" (String "/" path)))))) =>
        if URL.simple_path path then inl (URL.encode_spaces path)
        else inr (JString "TypeError: Invalid URL")
    | _ => inr (JString "TypeError: Invalid URL")
    end;
  process_cwd := "/srv/app";
  process_cwd_absolute := eq_refl;
  http_get_frame := fun _ _ _ _ _ held _ => held;
  http_get_confined := fun _ _ _ _ _ reached => reached;
  preq_accepts_2xx := fun status range =>
    proj2 (Z.ltb_lt status 400)
      (Z.lt_trans status 300 400 (proj2 range) (eq_refl : (300 < 400)%Z));
  preq_rejects_errors := fun status range =>
    proj2 (Z.ltb_ge status 400) range;
  URL_pathname_simple := fun path simple =>
    eq_ind_r (x := true)
      (fun b : bool =>
         (if b then inl (URL.encode_spaces path)
          else inr (JString "TypeError: Invalid URL"))
         = inl (URL.encode_spaces path) :> string + JSValue)
      eq_refl simple
|}.

Definition options : loc := 1%positive.

(** A world in which the caller holds one options object, [{}]. *)
Definition world : World := mkWorld {[ options := ∅ ]} [].

End Demo.

(* ================================================================== *)
(** * Verification *)

(** ** Strings *)

Lemma append_cons c s t : String c s +:+ t = String c (s +:+ t).
Proof. reflexivity. Qed.

Lemma append_nil_l s : "" +:+ s = s.
Proof. reflexivity. Qed.

Lemma append_nil_r s : s +:+ "" = s.
Proof. induction s as [|c s IH]; [done|]. by rewrite append_cons, IH. Qed.

Lemma append_assoc s t u : (s +:+ t) +:+ u = s +:+ (t +:+ u).
Proof.
  induction s as [|c s IH]; [done|]. by rewrite !append_cons, IH.
Qed.

Lemma append_eq_nil s t : s +:+ t = "" -> s = "" /\ t = "".
Proof. destruct s; [done|]. rewrite append_cons. discriminate. Qed.

Lemma append_eq_cons s t c u :
  s +:+ t = String c u ->
  (s = "" /\ t = String c u) \/ (exists s', s = String c s' /\ u = s' +:+ t).
Proof.
  destruct s as [|d s]; [by left|].
  rewrite append_cons. intros [= -> <-]. right. by exists s.
Qed.

Lemma falsy_nil s : JS.falsy s = true <-> s = "".
Proof. by destruct s. Qed.

(** ** Regular expressions: [test] decides the prefix language *)

Module RegExpFacts.
Import RegExp.

Lemma nullable_Matches r : nullable r = true <-> Matches r "".
Proof.
  split.
  - induction r as [| |items|r1 IH1 r2 IH2|r1 IH1 r2 IH2|r IH]; simpl; intros Hn;
      try discriminate.
    + constructor.
    + apply andb_prop in Hn as [H1 H2].
      change "" with ("" +:+ ""). constructor; auto.
    + apply orb_prop in Hn as [H1|H2]; [apply M_Alt_l|apply M_Alt_r]; auto.
    + constructor.
  - intros Hm. remember EmptyString as e eqn:He.
    induction Hm as [|items c Hc|r1 r2 s1 s2 _ IH1 _ IH2|r1 r2 s _ IH
                    |r1 r2 s _ IH|r|r s1 s2 _ _ _ _]; simpl; try done.
    + apply append_eq_nil in He as [-> ->]. by rewrite IH1, IH2.
    + by rewrite IH.
    + rewrite IH by done. apply orb_true_r.
Qed.

Lemma deriv_sound c r s : Matches (deriv c r) s -> Matches r (String c s).
Proof.
  revert s.
  induction r as [| |items|r1 IH1 r2 IH2|r1 IH1 r2 IH2|r IH]; simpl; intros s Hm.
  - inversion Hm.
  - inversion Hm.
  - destruct (in_class items c) eqn:Hc; inversion Hm; subst. by constructor.
  - assert (Hcat : forall t, Matches (Cat (deriv c r1) r2) t ->
                             Matches (Cat r1 r2) (String c t)).
    { intros t Ht. inversion Ht as [| |? ? s1 s2 H1 H2| | | |]; subst.
      rewrite <- append_cons. constructor; auto. }
    destruct (nullable r1) eqn:Hn; [|by apply Hcat].
    inversion Hm as [| | |? ? ? Hl|? ? ? Hr| |]; subst; [by apply Hcat|].
    change (String c s) with ("" +:+ String c s).
    constructor; [by apply nullable_Matches|auto].
  - inversion Hm; subst; [apply M_Alt_l|apply M_Alt_r]; auto.
  - inversion Hm as [| |? ? s1 s2 H1 H2| | | |]; subst.
    rewrite <- append_cons. apply M_Star_cons; auto.
Qed.

Lemma deriv_complete c r s : Matches r (String c s) -> Matches (deriv c r) s.
Proof.
  intros Hm. remember (String c s) as cs eqn:Hcs. revert s Hcs.
  induction Hm as [|items d Hd|r1 r2 s1 s2 H1 IH1 H2 IH2|r1 r2 t _ IH
                  |r1 r2 t _ IH|r|r s1 s2 H1 IH1 H2 IH2]; intros s Hcs; simpl.
  - discriminate.
  - injection Hcs as -> <-. rewrite Hd. constructor.
  - apply append_eq_cons in Hcs as [[-> ->]|(s1' & -> & ->)].
    + apply nullable_Matches in H1 as ->. apply M_Alt_r. by apply IH2.
    + assert (Matches (Cat (deriv c r1) r2) (s1' +:+ s2))
        by (constructor; auto).
      destruct (nullable r1); [by apply M_Alt_l|done].
  - apply M_Alt_l. by apply IH.
  - apply M_Alt_r. by apply IH.
  - discriminate.
  - apply append_eq_cons in Hcs as [[-> ->]|(s1' & -> & ->)].
    + by apply IH2.
    + constructor; auto.
Qed.

Lemma test_spec r s :
  test r s = true <-> exists p rest, s = p +:+ rest /\ Matches r p.
Proof.
  revert r. induction s as [|c s IH]; intros r; simpl.
  - rewrite orb_false_r, nullable_Matches. split.
    + intros Hm. by exists "", "".
    + intros (p & rest & Hs & Hm). symmetry in Hs.
      by apply append_eq_nil in Hs as [-> _].
  - rewrite orb_true_iff, nullable_Matches, IH. split.
    + intros [Hm|(p & rest & -> & Hm)].
      * by exists "", (String c s).
      * exists (String c p), rest. split; [done|]. by apply deriv_sound.
    + intros (p & rest & Hs & Hm). symmetry in Hs.
      apply append_eq_cons in Hs as [[-> _]|(p' & -> & ->)]; [by left|].
      right. exists p', rest. split; [done|]. by apply deriv_complete.
Qed.

Lemma Matches_Class_inv items s :
  Matches (Class items) s <->
  exists c, s = String c "" /\ in_class items c = true.
Proof.
  split.
  - intros Hm. inversion Hm; subst. eauto.
  - intros (c & -> & Hc). by constructor.
Qed.

Lemma Matches_Star_Class items s :
  Matches (Star (Class items)) s <-> JS.all_chars (in_class items) s = true.
Proof.
  split.
  - intros Hm. remember (Star (Class items)) as r eqn:Hr.
    induction Hm as [| | | | | |r s1 s2 H1 _ _ IH2]; try discriminate; [done|].
    injection Hr as ->. apply Matches_Class_inv in H1 as (c & -> & Hc).
    simpl. rewrite Hc. by apply IH2.
  - induction s as [|c s IH]; simpl; intros Ha; [constructor|].
    apply andb_prop in Ha as [Hc Hs].
    change (String c s) with (String c "" +:+ s).
    constructor; [by constructor|auto].
Qed.

Lemma Matches_Cat_inv r1 r2 s :
  Matches (Cat r1 r2) s <->
  exists s1 s2, s = s1 +:+ s2 /\ Matches r1 s1 /\ Matches r2 s2.
Proof.
  split.
  - intros Hm. inversion Hm; subst. eauto.
  - intros (s1 & s2 & -> & H1 & H2). by constructor.
Qed.

End RegExpFacts.

(** ** Numeric literals: the recogniser behind [isNaN] decides the grammar *)

Module NumericFacts.
Import Numeric.

Lemma all_chars_app p s t :
  JS.all_chars p (s +:+ t) = JS.all_chars p s && JS.all_chars p t.
Proof.
  induction s as [|c s IH]; [done|].
  rewrite append_cons. simpl. by rewrite IH, andb_assoc.
Qed.

Lemma all_chars_impl (p q : ascii -> bool) s :
  (forall c, p c = true -> q c = true) ->
  JS.all_chars p s = true -> JS.all_chars q s = true.
Proof.
  intros Hpq. induction s as [|c s IH]; simpl; [done|].
  intros [Hc Hs]%andb_prop. by rewrite (Hpq c Hc), IH.
Qed.

Lemma Digits_some_chars digit s :
  Digits digit s <-> JS.some_chars digit s = true.
Proof.
  unfold JS.some_chars. split.
  - induction 1 as [c Hc|c s Hc _ IH]; simpl.
    + by rewrite Hc.
    + rewrite Hc. simpl. by apply andb_prop in IH as [_ ->].
  - induction s as [|c s IH]; simpl; [done|].
    intros [Hc Hs]%andb_prop. destruct s as [|d s].
    + by constructor.
    + apply Digits_more; [done|]. by apply IH.
Qed.

Lemma Digits_all_chars digit s : Digits digit s -> JS.all_chars digit s = true.
Proof. intros Hd%Digits_some_chars. by apply andb_prop in Hd as [_ ?]. Qed.

Lemma Digits_not_nil digit s : Digits digit s -> JS.falsy s = false.
Proof. by destruct 1. Qed.

Lemma Optional_Digits_all_chars digit s :
  Optional (Digits digit) s <-> JS.all_chars digit s = true.
Proof.
  split.
  - destruct 1 as [|s Hs]; [done|by apply Digits_all_chars].
  - intros Ha. destruct s as [|c s]; [constructor|].
    apply Present, Digits_some_chars. unfold JS.some_chars. by rewrite Ha.
Qed.

Lemma span_spec p s a b :
  JS.span p s = (a, b) ->
  s = a +:+ b /\ JS.all_chars p a = true /\ stops p b.
Proof.
  revert a b. induction s as [|c s IH]; simpl; intros a b Hs.
  - by injection Hs as <- <-.
  - destruct (p c) eqn:Hc.
    + destruct (JS.span p s) as [a' b'] eqn:Hs'. injection Hs as <- <-.
      destruct (IH a' b' eq_refl) as (-> & Ha & Hb).
      simpl. by rewrite Hc, Ha.
    + injection Hs as <- <-. simpl. by rewrite Hc.
Qed.

Lemma span_app p a b :
  JS.all_chars p a = true -> stops p b -> JS.span p (a +:+ b) = (a, b).
Proof.
  intros Ha Hb. induction a as [|c a IH].
  - destruct b as [|d b]; simpl in *; [done|]. by rewrite Hb.
  - simpl in Ha. apply andb_prop in Ha as [Hc Ha].
    rewrite append_cons. simpl. by rewrite Hc, IH.
Qed.

Lemma digit_not_sign c : JS.isDecimalDigit c = true -> JS.is_sign c = false.
Proof. destruct c as [[] [] [] [] [] [] [] []]; by vm_compute. Qed.

Lemma is_sign_cases c : JS.is_sign c = true -> c = "+"%char \/ c = "-"%char.
Proof.
  unfold JS.is_sign. intros [H|H]%orb_prop; apply Ascii.eqb_eq in H; auto.
Qed.

Lemma is_exponent_indicator_cases c :
  JS.is_exponent_indicator c = true -> c = "e"%char \/ c = "E"%char.
Proof.
  unfold JS.is_exponent_indicator.
  intros [H|H]%orb_prop; apply Ascii.eqb_eq in H; auto.
Qed.

Lemma Digits_strip_sign d : Digits JS.isDecimalDigit d -> JS.strip_sign d = d.
Proof. destruct 1 as [c Hc|c s Hc _]; simpl; by rewrite (digit_not_sign c Hc). Qed.

Lemma SignedInteger_spec s : SignedInteger s <-> JS.isSignedInteger s = true.
Proof.
  unfold JS.isSignedInteger. split.
  - destruct 1 as [d Hd|d Hd|d Hd].
    + rewrite Digits_strip_sign by done. by apply Digits_some_chars.
    + by apply Digits_some_chars.
    + by apply Digits_some_chars.
  - destruct s as [|c r]; [done|]. simpl.
    destruct (JS.is_sign c) eqn:Hc.
    + intros Hd%Digits_some_chars.
      apply is_sign_cases in Hc as [->| ->]; [by apply SI_plus|by apply SI_minus].
    + intros Hd%Digits_some_chars. by apply SI_digits.
Qed.

Lemma ExponentPart_opt_spec e :
  Optional ExponentPart e <-> JS.isExponentPart_opt e = true.
Proof.
  split.
  - destruct 1 as [|e [i Hi|i Hi]]; [done| |];
      apply SignedInteger_spec in Hi; rewrite append_cons, append_nil_l;
      simpl; by rewrite Hi.
  - destruct e as [|c r]; [constructor|]. simpl.
    intros [Hc Hi%SignedInteger_spec]%andb_prop. apply Present.
    apply is_exponent_indicator_cases in Hc as [->| ->];
      [by apply Exponent_e|by apply Exponent_E].
Qed.

Lemma ExponentPart_opt_stops e :
  Optional ExponentPart e -> stops JS.isDecimalDigit e /\ stops (fun c => Ascii.eqb c ".") e.
Proof. destruct 1 as [|e [i Hi|i Hi]]; by vm_compute. Qed.

Lemma nonempty_Digits s :
  JS.falsy s = false -> JS.all_chars JS.isDecimalDigit s = true ->
  Digits JS.isDecimalDigit s.
Proof.
  intros Hne Ha. apply Digits_some_chars. unfold JS.some_chars.
  by rewrite Hne, Ha.
Qed.

Lemma StrUnsignedDecimalLiteral_spec s :
  StrUnsignedDecimalLiteral s <-> JS.isStrUnsignedDecimalLiteral s = true.
Proof.
  unfold JS.isStrUnsignedDecimalLiteral. split.
  - destruct 1 as [|i f e Hi Hf He|f e Hf He|i e Hi He]; [done| | |];
      apply orb_true_iff; right.
    + destruct (ExponentPart_opt_stops e He) as [Hstop _].
      apply ExponentPart_opt_spec in He.
      apply Optional_Digits_all_chars in Hf.
      rewrite (span_app _ i ("." +:+ f +:+ e)) by
        (by apply Digits_all_chars || done).
      rewrite append_cons, append_nil_l. simpl.
      rewrite (span_app _ f e) by done.
      by rewrite (Digits_not_nil _ _ Hi), He.
    + destruct (ExponentPart_opt_stops e He) as [Hstop _].
      apply ExponentPart_opt_spec in He.
      rewrite append_cons, append_nil_l. simpl.
      rewrite (span_app _ f e) by (by apply Digits_all_chars || done).
      by rewrite (Digits_not_nil _ _ Hf), He.
    + destruct (ExponentPart_opt_stops e He) as [Hstop Hdot].
      apply ExponentPart_opt_spec in He.
      rewrite (span_app _ i e) by (by apply Digits_all_chars || done).
      rewrite (Digits_not_nil _ _ Hi). simpl.
      destruct e as [|c r]; [done|]. simpl in Hdot. by rewrite Hdot, He.
  - intros [Hinf|Hspan]%orb_prop.
    { apply String.eqb_eq in Hinf as ->. constructor. }
    destruct (JS.span JS.isDecimalDigit s) as [int r] eqn:Hs.
    apply span_spec in Hs as (-> & Hint & _).
    destruct r as [|c r'].
    + apply negb_true_iff in Hspan.
      apply Unsigned_int; [by apply nonempty_Digits|constructor].
    + destruct (Ascii.eqb c ".") eqn:Hc.
      * apply Ascii.eqb_eq in Hc as ->.
        destruct (JS.span JS.isDecimalDigit r') as [frac e] eqn:Hr.
        apply span_spec in Hr as (-> & Hfrac & _).
        apply andb_prop in Hspan as [Hne He%ExponentPart_opt_spec].
        change (String "." (frac +:+ e)) with ("." +:+ frac +:+ e).
        destruct (JS.falsy int) eqn:Hi.
        -- apply falsy_nil in Hi as ->. rewrite append_nil_l.
           apply Unsigned_frac; [|done]. apply nonempty_Digits; [|done].
           simpl in Hne. by apply negb_true_iff in Hne.
        -- apply Unsigned_int_frac; [by apply nonempty_Digits| |done].
           by apply Optional_Digits_all_chars.
      * apply andb_prop in Hspan as [Hne%negb_true_iff He%ExponentPart_opt_spec].
        apply Unsigned_int; [by apply nonempty_Digits|done].
Qed.

Lemma StrUnsignedDecimalLiteral_strip_sign u :
  StrUnsignedDecimalLiteral u -> JS.strip_sign u = u.
Proof.
  destruct 1 as [|i f e Hi Hf He|f e Hf He|i e Hi He]; [done| |done|].
  - destruct Hi as [c Hc|c s Hc _]; rewrite append_cons; simpl;
      by rewrite (digit_not_sign c Hc).
  - destruct Hi as [c Hc|c s Hc _]; rewrite append_cons; simpl;
      by rewrite (digit_not_sign c Hc).
Qed.

Lemma StrDecimalLiteral_spec s :
  StrDecimalLiteral s <-> JS.isStrDecimalLiteral s = true.
Proof.
  unfold JS.isStrDecimalLiteral. split.
  - destruct 1 as [u Hu|u Hu|u Hu].
    + rewrite StrUnsignedDecimalLiteral_strip_sign by done.
      by apply StrUnsignedDecimalLiteral_spec.
    + by apply StrUnsignedDecimalLiteral_spec.
    + by apply StrUnsignedDecimalLiteral_spec.
  - destruct s as [|c r]; [done|]. simpl.
    destruct (JS.is_sign c) eqn:Hc.
    + intros Hu%StrUnsignedDecimalLiteral_spec.
      apply is_sign_cases in Hc as [->| ->];
        [by apply Decimal_plus|by apply Decimal_minus].
    + intros Hu%StrUnsignedDecimalLiteral_spec. by apply Decimal_unsigned.
Qed.

Lemma NonDecimalIntegerLiteral_spec s :
  NonDecimalIntegerLiteral s <-> JS.isNonDecimalIntegerLiteral s = true.
Proof.
  split.
  - destruct 1 as [d Hd|d Hd|d Hd|d Hd|d Hd|d Hd];
      apply Digits_some_chars in Hd;
      rewrite !append_cons, append_nil_l; simpl; rewrite Hd;
      by rewrite ?orb_true_r.
  - destruct s as [|z [|b r]]; simpl; try done.
    intros [Hz Hb]%andb_prop. apply Ascii.eqb_eq in Hz as ->.
    apply orb_prop in Hb as [Hb|Hb]; [apply orb_prop in Hb as [Hb|Hb]|];
      apply andb_prop in Hb as [Hb Hd%Digits_some_chars];
      apply orb_prop in Hb as [Hb|Hb]; apply Ascii.eqb_eq in Hb as ->.
    + by apply Binary_b.
    + by apply Binary_B.
    + by apply Octal_o.
    + by apply Octal_O.
    + by apply Hex_x.
    + by apply Hex_X.
Qed.

Lemma StrNumericLiteral_spec s :
  StrNumericLiteral s <->
  JS.isStrDecimalLiteral s || JS.isNonDecimalIntegerLiteral s = true.
Proof.
  rewrite orb_true_iff, <- StrDecimalLiteral_spec, <- NonDecimalIntegerLiteral_spec.
  split.
  - destruct 1; auto.
  - intros [?|?]; [by apply Numeric_decimal|by apply Numeric_non_decimal].
Qed.

(** White space and [trim]. *)

Lemma StrWhiteSpace_opt_all_chars w :
  StrWhiteSpace_opt w <-> JS.all_chars JS.isStrWhiteSpaceChar w = true.
Proof.
  split.
  - induction 1 as [|c s Hc _ IH]; simpl; [done|]. by rewrite Hc, IH.
  - induction w as [|c w IH]; simpl; [constructor|].
    intros [Hc Hw]%andb_prop. constructor; auto.
Qed.

Lemma StrWhiteSpace_opt_app w1 w2 :
  StrWhiteSpace_opt w1 -> StrWhiteSpace_opt w2 -> StrWhiteSpace_opt (w1 +:+ w2).
Proof.
  rewrite !StrWhiteSpace_opt_all_chars, all_chars_app. by intros -> ->.
Qed.

Lemma trimStart_white_space w s :
  StrWhiteSpace_opt w -> JS.trimStart (w +:+ s) = JS.trimStart s.
Proof.
  induction 1 as [|c w Hc _ IH]; [done|].
  rewrite append_cons. simpl. by rewrite Hc.
Qed.

Lemma trimEnd_white_space w : StrWhiteSpace_opt w -> JS.trimEnd w = "".
Proof. induction 1 as [|c w Hc _ IH]; simpl; [done|]. by rewrite IH, Hc. Qed.

Lemma trimEnd_no_white_space n w :
  JS.all_chars not_white_space n = true -> StrWhiteSpace_opt w ->
  JS.trimEnd (n +:+ w) = n.
Proof.
  intros Hn Hw. induction n as [|c n IH].
  - by apply trimEnd_white_space.
  - simpl in Hn. apply andb_prop in Hn as [Hc%negb_true_iff Hn].
    rewrite append_cons. simpl. rewrite (IH Hn), Hc. by destruct n.
Qed.

Lemma trim_literal w1 n w2 :
  StrWhiteSpace_opt w1 -> JS.all_chars not_white_space n = true ->
  StrWhiteSpace_opt w2 -> JS.trim (w1 +:+ n +:+ w2) = n.
Proof.
  intros H1 Hn H2. unfold JS.trim. rewrite trimStart_white_space by done.
  destruct n as [|c n].
  - rewrite append_nil_l.
    replace (JS.trimStart w2) with "" ; [done|].
    clear H1. induction H2 as [|d w Hd _ IH]; simpl; [done|]. by rewrite Hd.
  - assert (Hs : JS.trimStart (String c n +:+ w2) = String c n +:+ w2).
    { rewrite append_cons. simpl. simpl in Hn. unfold not_white_space in Hn.
      apply andb_prop in Hn as [Hc%negb_true_iff _]. by rewrite Hc. }
    rewrite Hs. by apply trimEnd_no_white_space.
Qed.

Lemma trimStart_decompose s :
  exists w, s = w +:+ JS.trimStart s /\ StrWhiteSpace_opt w.
Proof.
  induction s as [|c s (w & Hs & Hw)]; simpl.
  - exists "". split; [done|constructor].
  - destruct (JS.isStrWhiteSpaceChar c) eqn:Hc.
    + exists (String c w). rewrite append_cons, <- Hs. split; [done|].
      by constructor.
    + exists "". split; [done|constructor].
Qed.

Lemma trimEnd_decompose s :
  exists w, s = JS.trimEnd s +:+ w /\ StrWhiteSpace_opt w.
Proof.
  induction s as [|c s (w & Hs & Hw)]; simpl.
  - exists "". split; [done|constructor].
  - destruct (JS.trimEnd s) as [|d t] eqn:Ht.
    + rewrite append_nil_l in Hs. subst w.
      destruct (JS.isStrWhiteSpaceChar c) eqn:Hc.
      * exists (String c s). split; [done|]. by constructor.
      * by exists s.
    + exists w. by rewrite append_cons, <- Hs.
Qed.

Lemma trim_decompose s :
  exists w1 w2,
    s = w1 +:+ JS.trim s +:+ w2 /\ StrWhiteSpace_opt w1 /\ StrWhiteSpace_opt w2.
Proof.
  destruct (trimStart_decompose s) as (w1 & Hs & H1).
  destruct (trimEnd_decompose (JS.trimStart s)) as (w2 & Ht & H2).
  exists w1, w2. unfold JS.trim. by rewrite <- Ht.
Qed.

(** No character of a numeric literal is white space. *)

Lemma hex_not_white_space c :
  JS.isHexDigit c = true -> not_white_space c = true.
Proof. destruct c as [[] [] [] [] [] [] [] []]; by vm_compute. Qed.

Lemma decimal_is_hex c : JS.isDecimalDigit c = true -> JS.isHexDigit c = true.
Proof. destruct c as [[] [] [] [] [] [] [] []]; by vm_compute. Qed.

Lemma octal_is_hex c : JS.isOctalDigit c = true -> JS.isHexDigit c = true.
Proof. destruct c as [[] [] [] [] [] [] [] []]; by vm_compute. Qed.

Lemma binary_is_hex c : JS.isBinaryDigit c = true -> JS.isHexDigit c = true.
Proof. destruct c as [[] [] [] [] [] [] [] []]; by vm_compute. Qed.

Lemma Digits_no_white_space digit s :
  (forall c, digit c = true -> JS.isHexDigit c = true) ->
  Digits digit s -> JS.all_chars not_white_space s = true.
Proof.
  intros Hhex Hd%Digits_all_chars. revert Hd. apply all_chars_impl.
  intros c Hc. by apply hex_not_white_space, Hhex.
Qed.

Lemma SignedInteger_no_white_space i :
  SignedInteger i -> JS.all_chars not_white_space i = true.
Proof.
  destruct 1 as [d Hd|d Hd|d Hd];
    apply (Digits_no_white_space _ _ decimal_is_hex) in Hd;
    rewrite ?all_chars_app, Hd; done.
Qed.

Lemma ExponentPart_opt_no_white_space e :
  Optional ExponentPart e -> JS.all_chars not_white_space e = true.
Proof.
  destruct 1 as [|e [i Hi|i Hi]]; [done| |];
    apply SignedInteger_no_white_space in Hi;
    rewrite all_chars_app, Hi; done.
Qed.

Lemma StrUnsignedDecimalLiteral_no_white_space u :
  StrUnsignedDecimalLiteral u -> JS.all_chars not_white_space u = true.
Proof.
  destruct 1 as [|i f e Hi Hf He|f e Hf He|i e Hi He]; [done| | |];
    apply ExponentPart_opt_no_white_space in He;
    try apply (Digits_no_white_space _ _ decimal_is_hex) in Hi;
    rewrite ?all_chars_app, ?Hi, ?He; simpl.
  - destruct Hf as [|f Hf]; [done|].
    by rewrite (Digits_no_white_space _ _ decimal_is_hex Hf).
  - by rewrite (Digits_no_white_space _ _ decimal_is_hex Hf).
  - done.
Qed.

Lemma StrNumericLiteral_no_white_space n :
  StrNumericLiteral n -> JS.all_chars not_white_space n = true.
Proof.
  destruct 1 as [s [u Hu|u Hu|u Hu]|s Hs].
  - by apply StrUnsignedDecimalLiteral_no_white_space.
  - by rewrite all_chars_app, (StrUnsignedDecimalLiteral_no_white_space u Hu).
  - by rewrite all_chars_app, (StrUnsignedDecimalLiteral_no_white_space u Hu).
  - destruct Hs as [d Hd|d Hd|d Hd|d Hd|d Hd|d Hd]; rewrite all_chars_app;
      [apply (Digits_no_white_space _ _ binary_is_hex) in Hd
      |apply (Digits_no_white_space _ _ binary_is_hex) in Hd
      |apply (Digits_no_white_space _ _ octal_is_hex) in Hd
      |apply (Digits_no_white_space _ _ octal_is_hex) in Hd
      |apply (Digits_no_white_space _ _ (fun c H => H)) in Hd
      |apply (Digits_no_white_space _ _ (fun c H => H)) in Hd];
      by rewrite Hd.
Qed.

(** The recogniser behind [isNaN] decides the grammar. *)
Lemma isStringNumericLiteral_spec s :
  JS.isStringNumericLiteral s = true <-> StringNumericLiteral s.
Proof.
  unfold JS.isStringNumericLiteral. cbv zeta. split.
  - intros Hrec. destruct (trim_decompose s) as (w1 & w2 & Hs & H1 & H2).
    rewrite <- orb_assoc in Hrec. apply orb_prop in Hrec as [Hnil|Hlit].
    + apply falsy_nil in Hnil. rewrite Hnil, append_nil_l in Hs. subst s.
      by apply Literal_blank, StrWhiteSpace_opt_app.
    + rewrite Hs. apply Literal_number; [done| |done].
      by apply StrNumericLiteral_spec.
  - destruct 1 as [w Hw|w1 n w2 H1 Hn H2].
    + replace (JS.trim w) with ""; [done|].
      rewrite <- (append_nil_r w), <- (append_nil_l (w +:+ "")).
      symmetry. apply (trim_literal "" "" (w +:+ "")); [constructor|done|].
      apply StrWhiteSpace_opt_app; [done|constructor].
    + rewrite trim_literal by
        (done || by apply StrNumericLiteral_no_white_space).
      apply StrNumericLiteral_spec in Hn. rewrite <- orb_assoc, Hn.
      apply orb_true_r.
Qed.

Lemma isNaN_false_iff s : JS.isNaN s = false <-> StringNumericLiteral s.
Proof.
  unfold JS.isNaN. by rewrite negb_false_iff, isStringNumericLiteral_spec.
Qed.

Lemma isNaN_true_iff s : JS.isNaN s = true <-> ~ StringNumericLiteral s.
Proof.
  rewrite <- isNaN_false_iff. by destruct (JS.isNaN s).
Qed.

End NumericFacts.

(** ** The protocol detector *)

Lemma class_is_scheme_char c :
  RegExp.in_class
    [RegExp.Range "a" "z"; RegExp.Range "A" "Z"; RegExp.Range "0" "9";
     RegExp.Single "+"; RegExp.Single "."; RegExp.Single "-"] c
  = is_scheme_char c.
Proof. destruct c as [[] [] [] [] [] [] [] []]; reflexivity. Qed.

Lemma all_chars_ext p q s :
  (forall c, p c = q c) -> JS.all_chars p s = JS.all_chars q s.
Proof. intros Hpq. induction s as [|c s IH]; simpl; [done|]. by rewrite Hpq, IH. Qed.

Lemma Matches_Chr c s : RegExp.Matches (RegExp.Chr c) s <-> s = String c "".
Proof.
  unfold RegExp.Chr. rewrite RegExpFacts.Matches_Class_inv. split.
  - intros (d & -> & Hd). simpl in Hd. rewrite orb_false_r in Hd.
    by apply Ascii.eqb_eq in Hd as ->.
  - intros ->. exists c. split; [done|]. simpl. by rewrite Ascii.eqb_refl.
Qed.

(** The strings [uriProtocolRegex] matches in full: a non-empty run of
    scheme characters, then [://]. *)
Lemma uriProtocolRegex_Matches p :
  RegExp.Matches uriProtocolRegex p <->
  exists scheme, p = scheme +:+ "://" /\ scheme <> "" /\
                 JS.all_chars is_scheme_char scheme = true.
Proof.
  unfold uriProtocolRegex, RegExp.Plus.
  rewrite RegExpFacts.Matches_Cat_inv. split.
  - intros (s1 & s2 & -> & H1 & H2).
    apply RegExpFacts.Matches_Cat_inv in H1 as (a & b & -> & Ha & Hb).
    apply RegExpFacts.Matches_Class_inv in Ha as (c & -> & Hc).
    apply RegExpFacts.Matches_Star_Class in Hb.
    apply RegExpFacts.Matches_Cat_inv in H2 as (x & y & -> & Hx & Hy).
    apply RegExpFacts.Matches_Cat_inv in Hy as (y1 & y2 & -> & Hy1 & Hy2).
    apply Matches_Chr in Hx as ->, Hy1 as ->, Hy2 as ->.
    exists (String c b). split; [done|]. split; [done|].
    simpl. rewrite <- class_is_scheme_char, Hc.
    erewrite all_chars_ext; [exact Hb|]. intros d. by rewrite class_is_scheme_char.
  - intros (scheme & -> & Hne & Hall).
    destruct scheme as [|c b]; [done|]. simpl in Hall.
    apply andb_prop in Hall as [Hc Hb].
    exists (String c b), "://". split; [done|]. split.
    + change (String c b) with (String c "" +:+ b). constructor.
      * constructor. by rewrite class_is_scheme_char.
      * apply RegExpFacts.Matches_Star_Class.
        erewrite all_chars_ext; [exact Hb|]. apply class_is_scheme_char.
    + change "://" with (":" +:+ "/" +:+ "/").
      repeat constructor.
Qed.

(** C8.  [uriHasProtocol uri] is true exactly when [uri] starts with one
    or more characters of [A-Za-z0-9+.-] followed immediately by [://]:
    any prefix of that shape counts, whatever the scheme. *)
Theorem uriHasProtocol_iff_scheme_prefix (uri : string) :
  uriHasProtocol uri = true <->
  exists scheme rest,
    uri = scheme +:+ "://" +:+ rest /\
    scheme <> "" /\
    JS.all_chars is_scheme_char scheme = true.
Proof.
  unfold uriHasProtocol. rewrite RegExpFacts.test_spec. split.
  - intros (p & rest & -> & Hm).
    apply uriProtocolRegex_Matches in Hm as (scheme & -> & Hne & Hall).
    exists scheme, rest. by rewrite append_assoc.
  - intros (scheme & rest & -> & Hne & Hall).
    exists (scheme +:+ "://"), rest. split; [by rewrite append_assoc|].
    apply uriProtocolRegex_Matches. by exists scheme.
Qed.

(** ** The extension detector *)

Lemma basename_nil : Path.basename "" = "".
Proof. reflexivity. Qed.

(** The three cases of [fileExtension], on the test the code makes. *)
Lemma fileExtension_isNaN_cases (name : option string) :
  let parts := JS.split "." (Path.basename (default "" name)) in
  let last_part := JS.last_part parts in
  (length parts < 2 -> fileExtension name = "") /\
  (JS.isNaN last_part = false -> fileExtension name = "") /\
  (2 <= length parts -> JS.isNaN last_part = true ->
   fileExtension name = last_part).
Proof.
  assert (Hempty : forall r : string,
    (length (JS.split "." (Path.basename "")) < 2 -> r = r) /\
    (JS.isNaN (JS.last_part (JS.split "." (Path.basename ""))) = false -> r = r) /\
    (2 <= length (JS.split "." (Path.basename "")) ->
     JS.isNaN (JS.last_part (JS.split "." (Path.basename ""))) = true ->
     r = JS.last_part (JS.split "." (Path.basename "")))).
  { intros r. rewrite basename_nil. simpl. repeat split. intros; lia. }
  destruct name as [[|c f]|]; cbv zeta; simpl default; unfold fileExtension.
  - apply Hempty.
  - simpl JS.falsy. cbv iota zeta.
    set (parts := JS.split "." (Path.basename (String c f))).
    destruct (Nat.ltb_spec 1 (length parts)) as [Hlen|Hlen]; simpl.
    + destruct (JS.isNaN (JS.last_part parts)) eqn:Hnan;
        repeat split; intros; try done; lia.
    + repeat split; intros; try done; lia.
  - apply Hempty.
Qed.

(** C7.  [fileExtension] is total.  With [parts] the basename of the
    name split on the dot ([undefined] behaving as the empty name): the
    result is empty when there are fewer than two parts, empty when the
    last part converts to a number (it is a StringNumericLiteral, which
    is what [isNaN] tests), and the last part itself otherwise. *)
Theorem fileExtension_cases (name : option string) :
  let parts := JS.split "." (Path.basename (default "" name)) in
  let last_part := JS.last_part parts in
  (length parts < 2 -> fileExtension name = "") /\
  (Numeric.StringNumericLiteral last_part -> fileExtension name = "") /\
  (2 <= length parts -> ~ Numeric.StringNumericLiteral last_part ->
   fileExtension name = last_part).
Proof.
  cbv zeta. destruct (fileExtension_isNaN_cases name) as (Hfew & Hnum & Hext).
  split; [exact Hfew|]. split.
  - intros Hn. apply Hnum. by apply NumericFacts.isNaN_false_iff.
  - intros Hlen Hn. apply Hext; [done|]. by apply NumericFacts.isNaN_true_iff.
Qed.

(** ** The URI resolver *)

Lemma resolve_isAbsolute cwd p :
  Path.isAbsolute cwd = true -> Path.isAbsolute (Path.resolve cwd p) = true.
Proof.
  intros Hcwd. unfold Path.resolve.
  destruct cwd as [|d cwd]; [done|].
  destruct p as [|c p]; simpl JS.falsy; cbv iota.
  - by rewrite Hcwd.
  - destruct (Path.isAbsolute (String c p)); [done|]. by rewrite Hcwd.
Qed.

Lemma file_scheme_has_protocol p : uriHasProtocol ("file://" +:+ p) = true.
Proof.
  unfold uriHasProtocol. apply RegExpFacts.test_spec.
  exists "file://", p. split; [done|].
  apply uriProtocolRegex_Matches. by exists "file".
Qed.

Section Resolver.
Context `{Collaborators}.

(** C2.  [resolveUri] computes exactly the four steps of the
    specification, in their order.  (The code tests the optional
    arguments for truthiness, so an empty string counts as absent;
    appending or prepending the empty string changes nothing.) *)
Theorem resolveUri_by_steps (identifier : string)
    (baseLocation defaultExtension : option string) :
  resolveUri identifier baseLocation defaultExtension
  = resolve_by_steps identifier baseLocation defaultExtension.
Proof.
  unfold resolveUri, resolve_by_steps. cbv zeta.
  assert (Hext :
    (if JS.falsy (fileExtension (Some identifier)) && JS.truthy defaultExtension
     then JS.concat identifier defaultExtension else identifier)
    = match defaultExtension with
      | Some ext =>
          if String.eqb (fileExtension (Some identifier)) "" then identifier +:+ ext
          else identifier
      | None => identifier
      end).
  { destruct (fileExtension (Some identifier)) as [|c e];
      destruct defaultExtension as [[|d ext]|]; simpl; try done.
    by rewrite append_nil_r. }
  rewrite Hext. clear Hext.
  set (url := match defaultExtension with Some _ => _ | None => _ end).
  assert (Hbase :
    (if JS.truthy baseLocation && negb (uriHasProtocol url)
     then JS.concat_left baseLocation url else url)
    = match baseLocation with
      | Some base => if uriHasProtocol url then url else base +:+ url
      | None => url
      end).
  { destruct baseLocation as [[|b base]|]; simpl;
      destruct (uriHasProtocol url); done. }
  rewrite Hbase. clear Hbase.
  set (url' := match baseLocation with Some _ => _ | None => _ end).
  by destruct (uriHasProtocol url').
Qed.

(** C3.  [resolveUri] is a total function of its three arguments and
    the working directory, and its result always has a protocol: either
    the string built from the arguments had one already, or the result
    is [file://] followed by an absolute path. *)
Theorem resolveUri_has_protocol (identifier : string)
    (baseLocation defaultExtension : option string) :
  let s := resolveUri identifier baseLocation defaultExtension in
  uriHasProtocol s = true /\
  ((exists path, s = "file://" +:+ path /\ Path.isAbsolute path = true) \/
   (exists base ext,
      s = base +:+ identifier +:+ ext /\
      (base = "" \/ baseLocation = Some base) /\
      (ext = "" \/ defaultExtension = Some ext))).
Proof.
  cbv zeta. unfold resolveUri. cbv zeta.
  set (url := if JS.falsy _ && JS.truthy defaultExtension then _ else _).
  assert (Hurl : exists ext, url = identifier +:+ ext /\
                             (ext = "" \/ defaultExtension = Some ext)).
  { subst url. destruct (JS.falsy _ && JS.truthy defaultExtension) eqn:Hc.
    - apply andb_prop in Hc as [_ Hc].
      destruct defaultExtension as [ext|]; [by eauto|done].
    - exists "". rewrite append_nil_r. auto. }
  destruct Hurl as (ext & Hurl & Hext).
  set (url' := if JS.truthy baseLocation && _ then _ else _).
  assert (Hurl' : exists base, url' = base +:+ url /\
                               (base = "" \/ baseLocation = Some base)).
  { subst url'. destruct (JS.truthy baseLocation && _) eqn:Hc.
    - apply andb_prop in Hc as [Hc _].
      destruct baseLocation as [base|]; [by eauto|done].
    - exists "". auto. }
  destruct Hurl' as (base & Hurl' & Hbase).
  destruct (uriHasProtocol url') eqn:Hp; simpl.
  - split; [done|]. right. exists base, ext. by rewrite Hurl', Hurl.
  - split; [apply file_scheme_has_protocol|]. left.
    eexists. split; [done|].
    apply resolve_isAbsolute, process_cwd_absolute.
Qed.

End Resolver.

(** ** The content fetcher *)

Lemma prefix_append p s :
  String.prefix p s = true -> exists rest, s = p +:+ rest.
Proof.
  revert s. induction p as [|c p IH]; intros [|d s]; simpl; try done.
  - by exists "".
  - by exists (String d s).
  - destruct (Ascii.ascii_dec c d) as [->|]; [|done].
    intros Hp. apply IH in Hp as [rest ->]. by exists rest.
Qed.

Lemma startsWith_file_has_protocol url :
  JS.startsWith url "file://" = true -> uriHasProtocol url = true.
Proof.
  intros Hp. apply prefix_append in Hp as [rest ->].
  apply file_scheme_has_protocol.
Qed.

Section Fetcher.
Context `{Collaborators}.

Lemma urlGet_local url l w :
  uriHasProtocol url = false ->
  urlGet url (Some l) w = readFile url l w.
Proof. intros Hp. unfold urlGet. simpl. unfold mbind, promise_bind, mret, promise_ret. by rewrite Hp. Qed.

Lemma urlGet_file url l w :
  JS.startsWith url "file://" = true ->
  urlGet url (Some l) w =
  match URL_pathname url with
  | inl pathname => readFile pathname l w
  | inr e => (Rejected (Thrown e), w)
  end.
Proof.
  intros Hf. unfold urlGet. simpl. unfold mbind, promise_bind, mret, promise_ret.
  rewrite (startsWith_file_has_protocol _ Hf), Hf. simpl. unfold throwing.
  by destruct (URL_pathname url).
Qed.

Lemma urlGet_remote url l w :
  uriHasProtocol url = true ->
  JS.startsWith url "file://" = false ->
  let o := <["uri" := JString url]> (fields_of l w) in
  let exchange := http_get (log w) (<[l := o]> (heap w)) l in
  urlGet url (Some l) w =
  (match exchange.1 with
   | inl response =>
       if preq_accepts (status response) then Resolved (body response)
       else Rejected (HTTPError response)
   | inr e => Rejected (Foreign e)
   end,
   mkWorld exchange.2 (log w ++ [HttpGet o])).
Proof.
  intros Hp Hf. unfold urlGet. simpl. unfold mbind, promise_bind, mret, promise_ret.
  rewrite Hp, Hf. simpl. unfold preq_get, fields_of. simpl.
  rewrite lookup_insert_eq. simpl.
  destruct (http_get _ _ _) as [[response|e] h']; simpl; [|done].
  by destruct (preq_accepts (status response)).
Qed.



End Fetcher.

(** ** The options object *)

Lemma in_handler_world {A : Type} (p : Promise A) w :
  (in_handler p w).2 = (p w).2.
Proof. unfold in_handler. by destruct (p w) as [[a|[]] w']. Qed.

(** Writing a value that is no reference into a field makes no object
    reachable. *)
Lemma reachable_insert_scalar h l k v root x :
  reference v = None ->
  reachable (<[l := <[k := v]> (default ∅ (h !! l))]> h) root x ->
  reachable h root x.
Proof.
  intros Hv Hreach.
  induction Hreach as [|l1 o k1 v1 l2 _ IH Hl1 Hk1 Hv1]; [constructor|].
  destruct (decide (l1 = l)) as [->|Hne].
  - rewrite lookup_insert_eq in Hl1. injection Hl1 as <-.
    destruct (decide (k1 = k)) as [->|Hk].
    + rewrite lookup_insert_eq in Hk1. injection Hk1 as <-. congruence.
    + rewrite lookup_insert_ne in Hk1 by done.
      destruct (h !! l) as [o|] eqn:Hl; simpl in Hk1; [|done].
      by eapply reachable_field.
  - rewrite lookup_insert_ne in Hl1 by done. by eapply reachable_field.
Qed.

(** From an object without fields nothing else is reached. *)
Lemma reachable_empty h root x :
  h !! root = Some ∅ -> reachable h root x -> x = root.
Proof.
  intros Hroot Hreach.
  induction Hreach as [|l1 o k1 v1 l2 _ IH Hl1 Hk1 Hv1]; [done|].
  subst l1. rewrite Hroot in Hl1. injection Hl1 as <-. done.
Qed.

Section Options.
Context `{Collaborators}.

Lemma urlGet_local_heap url l w :
  uriHasProtocol url = false \/ JS.startsWith url "file://" = true ->
  heap (urlGet url (Some l) w).2 = heap w.
Proof.
  intros [Hp|Hf].
  - by rewrite urlGet_local.
  - rewrite urlGet_file by done. by destruct (URL_pathname url).
Qed.

Lemma urlGet_frame url l w x :
  out_of_reach l w x ->
  heap (urlGet url (Some l) w).2 !! x = heap w !! x /\
  out_of_reach l (urlGet url (Some l) w).2 x.
Proof.
  intros [[o Hx] Hfar].
  destruct (uriHasProtocol url) eqn:Hp;
    [destruct (JS.startsWith url "file://") eqn:Hf|].
  - unfold out_of_reach. rewrite urlGet_local_heap by by right.
    split; [done|]. split; [by exists o|done].
  - rewrite urlGet_remote by done. cbv zeta. simpl.
    assert (Hne : x <> l) by (intros ->; apply Hfar; constructor).
    set (request := <["uri" := JString url]> (fields_of l w)).
    assert (Hx1 : <[l := request]> (heap w) !! x = Some o)
      by by rewrite lookup_insert_ne.
    assert (Hfar1 : ~ reachable (<[l := request]> (heap w)) l x).
    { intros Hreach. apply Hfar.
      by apply (reachable_insert_scalar (heap w) l "uri" (JString url)). }
    unfold out_of_reach. simpl.
    rewrite (http_get_frame _ _ _ _ _ Hx1 Hfar1). rewrite Hx.
    split; [done|]. split; [by eexists|].
    intros Hreach. apply Hfar1.
    eapply http_get_confined; [by eexists|exact Hreach].
  - unfold out_of_reach. rewrite urlGet_local_heap by by left.
    split; [done|]. split; [by exists o|done].
Qed.

Lemma urlGetObject_eq url l w :
  urlGetObject url (Some l) w =
  match urlGet url (Some l) w with
  | (Resolved content, w') => (objectFactory content, w')
  | (Rejected e, w') => (Rejected e, w')
  end.
Proof. reflexivity. Qed.

Lemma urlGetObject_world url l w :
  (urlGetObject url (Some l) w).2 = (urlGet url (Some l) w).2.
Proof.
  rewrite urlGetObject_eq. by destruct (urlGet url (Some l) w) as [[content|e] w'].
Qed.

Lemma attempt_world url l w :
  (in_handler (urlGetObject url (Some l)) w).2 = (urlGet url (Some l) w).2.
Proof. by rewrite in_handler_world, urlGetObject_world. Qed.

Lemma try_in_order_frame urls l e w x :
  out_of_reach l w x ->
  heap (try_in_order urls l e w).2 !! x = heap w !! x /\
  out_of_reach l (try_in_order urls l e w).2 x.
Proof.
  revert e w. induction urls as [|url rest IH]; intros e w Hx; simpl; [done|].
  destruct (urlGet_frame url l w x Hx) as [Hheap Hfar].
  rewrite <- attempt_world in Hheap, Hfar.
  destruct (in_handler (urlGetObject url (Some l)) w) as [[v|e'] w'];
    [done|].
  simpl in Hheap, Hfar. destruct (IH e' w' Hfar) as [Hheap' Hfar'].
  by rewrite Hheap', Hheap.
Qed.

(** The chain of [catch] handlers built by [reduce] is the fallback
    loop: once the promise so far is rejected, the remaining candidates
    are tried in order. *)
Lemma reduce_catch_loop urls l (promise : Promise JSValue) w :
  fold_left
    (fun promise url => catch promise (fun _ => urlGetObject url (Some l)))
    urls promise w
  = match promise w with
    | (Resolved v, w') => (Resolved v, w')
    | (Rejected e, w') => try_in_order urls l e w'
    end.
Proof.
  revert promise w. induction urls as [|url rest IH]; intros promise w; simpl.
  - by destruct (promise w) as [[v|e] w'].
  - rewrite IH. unfold catch.
    destruct (promise w) as [[v|e] w']; [done|].
    by destruct (in_handler (urlGetObject url (Some l)) w') as [[v|e'] w''].
Qed.

Lemma urlGetFirstObject_loop urls l w :
  urlGetFirstObject urls (Some l) w =
  try_in_order (ensure_array urls) l NoReason w.
Proof.
  unfold urlGetFirstObject. simpl.
  unfold mbind, promise_bind, mret, promise_ret.
  by rewrite reduce_catch_loop.
Qed.

Lemma uriGetFirstObject_unfold uri baseUris ext l w :
  uriGetFirstObject uri baseUris ext (Some l) w =
  urlGetFirstObject
    (IsArray (map (fun b => resolveUri uri b ext) (ensure_array baseUris)))
    (Some l) w.
Proof. reflexivity. Qed.

Lemma urlGet_call url l w :
  let w' := (urlGet url (Some l) w).2 in
  log w' = log w \/
  exists e,
    log w' = log w ++ [e] /\
    event_options e
    = if is_remote url then <["uri" := JString url]> (fields_of l w)
      else fields_of l w.
Proof.
  cbv zeta. unfold is_remote.
  destruct (uriHasProtocol url) eqn:Hp;
    [destruct (JS.startsWith url "file://") eqn:Hf|].
  - rewrite urlGet_file by done.
    destruct (URL_pathname url) as [pathname|e]; [|by left].
    right. by eexists.
  - rewrite urlGet_remote by done. right. by eexists.
  - rewrite urlGet_local by done. right. by eexists.
Qed.

(** C5, as the code has it.  The options object the caller supplies
    reaches the collaborator by reference.  On the local branches of
    [urlGet] the heap is left as it was.  On the remote branch the
    module sets the field [uri] of that object to the url and hands the
    object, so changed, to the HTTP client: that is the only write of
    the module, and the heap is afterwards as the client leaves it.  The
    one collaborator [urlGet] calls, if it calls one, is given the
    object as it then is.  Through each of the four entry points, an
    object of the caller that cannot be reached from the options object
    is as before. *)
Theorem options_only_uri_written
    (url uri : string) (urls : MaybeArray string)
    (baseUris : MaybeArray (option string)) (ext : option string)
    (options : loc) (w : World) :
  (uriHasProtocol url = false \/ JS.startsWith url "file://" = true ->
   heap (urlGet url (Some options) w).2 = heap w) /\
  (uriHasProtocol url = true -> JS.startsWith url "file://" = false ->
   let request := <["uri" := JString url]> (fields_of options w) in
   let handed := <[options := request]> (heap w) in
   (urlGet url (Some options) w).2
   = mkWorld (http_get (log w) handed options).2
       (log w ++ [HttpGet request])) /\
  (log (urlGet url (Some options) w).2 = log w \/
   exists e,
     log (urlGet url (Some options) w).2 = log w ++ [e] /\
     event_options e
     = if is_remote url then <["uri" := JString url]> (fields_of options w)
       else fields_of options w) /\
  (forall l, out_of_reach options w l ->
   heap (urlGet url (Some options) w).2 !! l = heap w !! l /\
   heap (urlGetObject url (Some options) w).2 !! l = heap w !! l /\
   heap (urlGetFirstObject urls (Some options) w).2 !! l = heap w !! l /\
   heap (uriGetFirstObject uri baseUris ext (Some options) w).2 !! l
   = heap w !! l).
Proof.
  split; [apply urlGet_local_heap|].
  split; [intros Hp Hf; by rewrite urlGet_remote|].
  split; [apply urlGet_call|].
  intros l Hl.
  split; [by apply urlGet_frame|].
  split; [rewrite urlGetObject_world; by apply urlGet_frame|].
  split; [rewrite urlGetFirstObject_loop; by apply try_in_order_frame|].
  rewrite uriGetFirstObject_unfold, urlGetFirstObject_loop.
  by apply try_in_order_frame.
Qed.

End Options.

(** C5, as the specification has it, fails: fetching a remote url
    leaves the url in the caller's options object. *)
Lemma options_modified_by_remote_fetch :
  let w' :=
    (@urlGet Demo.collaborators "http://example.org/doc.yaml"
       (Some Demo.options) Demo.world).2 in
  fields_of Demo.options Demo.world !! "uri" = None /\
  fields_of Demo.options w' !! "uri"
  = Some (JString "http://example.org/doc.yaml") /\
  fields_of Demo.options w' <> fields_of Demo.options Demo.world.
Proof.
  cbv zeta. split; [|split].
  - by vm_compute.
  - by vm_compute.
  - intros Heq. apply (f_equal (fun o => o !! "uri")) in Heq.
    vm_compute in Heq. discriminate.
Qed.


(** ** The fallback orchestrator *)

Section Orchestrator.
Context `{Collaborators}.

Lemma attempt_all_cons url rest l w :
  attempt_all (url :: rest) l w =
  let first := in_handler (urlGetObject url (Some l)) w in
  let others := attempt_all rest l first.2 in
  (first.1 :: others.1, others.2).
Proof.
  simpl. destruct (in_handler (urlGetObject url (Some l)) w) as [o w1]. simpl.
  by destruct (attempt_all rest l w1) as [os w2].
Qed.

(** The loop attempts a prefix of the candidates, each after the
    failure of the one before, and settles as the last attempt did. *)
Lemma try_in_order_attempts urls l e0 w :
  exists n, n <= length urls /\
    let attempts := attempt_all (take n urls) l w in
    let result := try_in_order urls l e0 w in
    result.2 = attempts.2 /\
    length attempts.1 = n /\
    (forall i o, attempts.1 !! i = Some o -> S i < n -> failed o) /\
    match last attempts.1 with
    | None => urls = [] /\ result.1 = Rejected e0
    | Some (Resolved v) => result.1 = Resolved v
    | Some (Rejected e) => n = length urls /\ result.1 = Rejected e
    end.
Proof.
  revert e0 w. induction urls as [|url rest IH]; intros e0 w.
  - exists 0. by repeat split.
  - destruct (in_handler (urlGetObject url (Some l)) w) as [[v|e] w1] eqn:Hu.
    + exists 1. split; [simpl; lia|]. cbv zeta.
      change (take 1 (url :: rest)) with [url].
      rewrite attempt_all_cons. simpl. rewrite Hu. simpl.
      repeat split. intros i o _ Hi. lia.
    + destruct (IH e w1) as (n & Hn & Hw & Hlen & Hfail & Hlast).
      exists (S n). split; [simpl; lia|]. cbv zeta.
      change (take (S n) (url :: rest)) with (url :: take n rest).
      rewrite attempt_all_cons. simpl. rewrite Hu. simpl.
      split; [done|]. split; [by rewrite Hlen|]. split.
      * intros [|i] o Ho Hi; simpl in Ho.
        -- injection Ho as <-. by exists e.
        -- apply (Hfail i o Ho). lia.
      * rewrite last_cons.
        destruct (last (attempt_all (take n rest) l w1).1) as [[v|e']|].
        -- done.
        -- destruct Hlast as [-> Hr]. done.
        -- destruct Hlast as [-> Hr]. split; [|done].
           destruct n; [done|simpl in Hn; lia].
Qed.

(** C1.  [urlGetFirstObject] attempts [urlGetObject] on a prefix of the
    candidates, in their order and each in the world the one before left:
    every attempt but the last has failed; when the last attempt
    succeeded, the result is its result, and no later candidate is
    attempted; when it failed, every candidate has been attempted and the
    error is the error of that last attempt.  (With no candidate at all
    there is no attempt, and the rejection is the seed's.) *)
Theorem urlGetFirstObject_first_success
    (urls : MaybeArray string) (options : loc) (w : World) :
  exists n, n <= length (ensure_array urls) /\
    let attempts := attempt_all (take n (ensure_array urls)) options w in
    let result := urlGetFirstObject urls (Some options) w in
    result.2 = attempts.2 /\
    length attempts.1 = n /\
    (forall i o, attempts.1 !! i = Some o -> S i < n -> failed o) /\
    match last attempts.1 with
    | None => ensure_array urls = [] /\ result.1 = Rejected NoReason
    | Some (Resolved v) => result.1 = Resolved v
    | Some (Rejected e) =>
        n = length (ensure_array urls) /\ result.1 = Rejected e
    end.
Proof.
  destruct (try_in_order_attempts (ensure_array urls) options NoReason w)
    as (n & Hn & Hrest).
  exists n. split; [done|]. cbv zeta in *.
  by rewrite urlGetFirstObject_loop.
Qed.

Lemma default_options_then {A : Type} (k : loc -> Promise A) options w :
  (l ← default_options options; k l) w
  = let start := default_options options w in
    match start.1 with
    | Resolved l => k l start.2
    | Rejected e => (Rejected e, start.2)
    end.
Proof.
  unfold mbind, promise_bind. by destruct (default_options options w) as [[l|e] w'].
Qed.

(** C9.  [uriGetFirstObject] is [urlGetFirstObject] on the base
    locations mapped, in order, through [resolveUri], with the same
    options; and an argument that is not an array stands for the array
    of that one element, for the base locations as for the urls. *)
Theorem uriGetFirstObject_refines
    (uri : string) (baseUris : MaybeArray (option string))
    (defaultFileExtension : option string) (options : option loc) (w : World) :
  uriGetFirstObject uri baseUris defaultFileExtension options w
  = urlGetFirstObject
      (IsArray
         (map (fun baseUri => resolveUri uri baseUri defaultFileExtension)
              (ensure_array baseUris)))
      options w
  /\ (forall baseUri,
        uriGetFirstObject uri (NotArray baseUri) defaultFileExtension options w
        = uriGetFirstObject uri (IsArray [baseUri]) defaultFileExtension
            options w)
  /\ (forall url,
        urlGetFirstObject (NotArray url) options w
        = urlGetFirstObject (IsArray [url]) options w).
Proof.
  split; [|by split].
  unfold uriGetFirstObject. rewrite default_options_then.
  unfold urlGetFirstObject at 2. rewrite default_options_then. cbv zeta.
  by destruct options as [l|].
Qed.

(** C10.  With no candidate, [urlGetFirstObject] settles at once: it is
    rejected with the seed of the fold, which carries no error; no
    collaborator is called.  [uriGetFirstObject] with no base location
    does the same. *)
Theorem urlGetFirstObject_empty
    (uri : string) (ext : option string) (options : option loc) (w : World) :
  let result := urlGetFirstObject (IsArray []) options w in
  result.1 = Rejected NoReason /\
  log result.2 = log w /\
  uriGetFirstObject uri (IsArray []) ext options w = result.
Proof.
  cbv zeta. unfold uriGetFirstObject, urlGetFirstObject.
  rewrite !default_options_then. cbv zeta.
  by destruct options as [l|].
Qed.

End Orchestrator.

(** ** The object decoder *)

Section Decoder.
Context `{Collaborators}.

Lemma settle_not_ErrorNew {A : Type} (r : A + JSValue) m :
  settle r <> Rejected (ErrorNew m).
Proof. by destruct r. Qed.

(** C6.  [objectFactory] by the shape of its argument: an object that is
    not a Buffer is returned as it is; the bytes of a Buffer are read as
    UTF-8 text and the text is given to the YAML parser; a string is
    given to the YAML parser; and the module's own error is raised
    exactly when the argument is neither an object nor a string (a
    Buffer is an object), as for the number 42.  What the parser returns
    or throws is the outcome in the two parsing cases. *)
Theorem objectFactory_cases (data : JSValue) :
  (isObject data = true -> (forall bytes, data <> JBuffer bytes) ->
   objectFactory data = Resolved data) /\
  (forall bytes, data = JBuffer bytes ->
   objectFactory data = settle (yaml_safeLoad (Buffer_toString bytes))) /\
  (forall s, data = JString s ->
   objectFactory data = settle (yaml_safeLoad s)) /\
  ((exists message, objectFactory data = Rejected (ErrorNew message)) <->
   isObject data = false /\ (forall s, data <> JString s)) /\
  objectFactory (JNumber 42) = Rejected (ErrorNew convert_error_message).
Proof.
  split; [|split; [|split; [|split]]].
  - intros Hobj Hbuf. destruct data; try done. by destruct (Hbuf bytes).
  - by intros bytes ->.
  - by intros s ->.
  - split.
    + intros [message Hm]. destruct data; simpl in *; try done.
      * by apply settle_not_ErrorNew in Hm.
      * by apply settle_not_ErrorNew in Hm.
    + intros [Hobj Hstr]. exists convert_error_message.
      destruct data; try done. by destruct (Hstr s).
  - done.
Qed.

End Decoder.

(** ** The properties at concrete inputs *)

Lemma objectFactory_cases_witness :
  @objectFactory Demo.collaborators Demo.decoded = Resolved Demo.decoded /\
  @objectFactory Demo.collaborators (JString Demo.document)
  = Resolved Demo.decoded /\
  @objectFactory Demo.collaborators (JString "{") 
  = Rejected (Foreign (JString "YAMLException")) /\
  exists message,
    @objectFactory Demo.collaborators JNull = Rejected (ErrorNew message).
Proof.
  split; [|split; [|split]].
  - apply (proj1 (@objectFactory_cases Demo.collaborators Demo.decoded));
      [reflexivity|discriminate].
  - apply (proj1 (proj2 (proj2
      (@objectFactory_cases Demo.collaborators (JString Demo.document))))
      Demo.document eq_refl).
  - apply (proj1 (proj2 (proj2
      (@objectFactory_cases Demo.collaborators (JString "{")))) "{" eq_refl).
  - apply (proj1 (proj2 (proj2 (proj2
      (@objectFactory_cases Demo.collaborators JNull))))).
    split; [reflexivity|discriminate].
Defined.

Lemma fileExtension_cases_witness :
  fileExtension (Some "path/to/file") = "" /\
  fileExtension (Some "path/to/file/0.0.3") = "" /\
  fileExtension (Some "path/to/file.yaml") = "yaml".
Proof.
  split; [|split].
  - apply (proj1 (fileExtension_cases (Some "path/to/file"))).
    vm_compute. lia.
  - apply (proj1 (proj2 (fileExtension_cases (Some "path/to/file/0.0.3")))).
    apply NumericFacts.isNaN_false_iff. reflexivity.
  - apply (proj2 (proj2 (fileExtension_cases (Some "path/to/file.yaml")))).
    + vm_compute. lia.
    + apply NumericFacts.isNaN_true_iff. reflexivity.
Defined.


Lemma options_only_uri_written_witness :
  heap (@urlGet Demo.collaborators "file:///tmp/_mocha_test_file.yaml"
          (Some Demo.options) Demo.world).2
  = heap Demo.world /\
  log (@urlGet Demo.collaborators "http://example.org/doc.yaml"
         (Some Demo.options) Demo.world).2
  = [HttpGet {[ "uri" := JString "http://example.org/doc.yaml" ]}].
Proof.
  pose proof (@options_only_uri_written Demo.collaborators
    "file:///tmp/_mocha_test_file.yaml" "" (IsArray []) (IsArray []) None
    Demo.options Demo.world) as Hlocal.
  pose proof (@options_only_uri_written Demo.collaborators
    "http://example.org/doc.yaml" "" (IsArray []) (IsArray []) None
    Demo.options Demo.world) as Hremote.
  split.
  - apply (proj1 Hlocal). right. reflexivity.
  - rewrite (proj1 (proj2 Hremote) eq_refl eq_refl). vm_compute. reflexivity.
Defined.

(** ** The test suite of the repository, run in the small world *)

Example test_objectFactory_same_object :
  @objectFactory Demo.collaborators Demo.decoded = Resolved Demo.decoded.
Proof. reflexivity. Qed.

Example test_objectFactory_string :
  @objectFactory Demo.collaborators (JString Demo.document)
  = Resolved Demo.decoded.
Proof. reflexivity. Qed.

Example test_objectFactory_bad_data :
  @objectFactory Demo.collaborators (JNumber 123)
  = Rejected (ErrorNew convert_error_message).
Proof. reflexivity. Qed.

Example test_urlGetObject_file_url :
  (@urlGetObject Demo.collaborators "file:///tmp/_mocha_test_file.yaml" None
     Demo.world).1
  = Resolved Demo.decoded.
Proof. by vm_compute. Qed.

Example test_urlGetFirstObject_first_existent :
  (@urlGetFirstObject Demo.collaborators
     (IsArray ["/tmp/non_existant1.yaml"; "file:///tmp/_mocha_test_file.yaml"])
     None Demo.world).1
  = Resolved Demo.decoded.
Proof. by vm_compute. Qed.

Example test_urlGetFirstObject_none_existent :
  (@urlGetFirstObject Demo.collaborators
     (IsArray ["/tmp/non_existant1.yaml"; "/tmp/non_existant2.yaml"])
     None Demo.world).1
  = Rejected (Foreign (JString "ENOENT: /tmp/non_existant2.yaml")).
Proof. by vm_compute. Qed.

Example test_uriGetFirstObject_first_existent :
  (@uriGetFirstObject Demo.collaborators "_mocha_test_file.yaml"
     (IsArray [Some "file:///non_existant1/"; Some "file:///tmp/"])
     None None Demo.world).1
  = Resolved Demo.decoded.
Proof. by vm_compute. Qed.

Example test_uriGetFirstObject_none_existent :
  (@uriGetFirstObject Demo.collaborators "_mocha_test_file.yaml"
     (IsArray [Some "file:///non_existant1/"; Some "file:///non_existant2/"])
     None None Demo.world).1
  = Rejected
      (Foreign (JString "ENOENT: /non_existant2/_mocha_test_file.yaml")).
Proof. by vm_compute. Qed.

Example test_fileExtension :
  fileExtension (Some "path/to/file") = "" /\
  fileExtension None = "" /\
  fileExtension (Some "path/to/file/0.0.3") = "" /\
  fileExtension (Some "path/to/file.yaml") = "yaml".
Proof. by vm_compute. Qed.

Example test_uriHasProtocol :
  uriHasProtocol "path/to/file.yaml" = false /\
  uriHasProtocol "file:///path/to/file.yaml" = true.
Proof. by vm_compute. Qed.

Example test_resolveUri :
  let resolveUri := @resolveUri Demo.collaborators in
  resolveUri "path/to/file" None None = "file:///srv/app/path/to/file" /\
  resolveUri "path/to/file" None (Some ".yaml")
  = "file:///srv/app/path/to/file.yaml" /\
  resolveUri "path/to/file" (Some "/srv/app/") None
  = "file:///srv/app/path/to/file" /\
  resolveUri "path/to/file" (Some "file:///srv/app/") None
  = "file:///srv/app/path/to/file" /\
  resolveUri "path/to/file" (Some "file:///srv/app/") (Some ".yaml")
  = "file:///srv/app/path/to/file.yaml" /\
  resolveUri "path/to/file" (Some "http://domain.example.com/") (Some ".yaml")
  = "http://domain.example.com/path/to/file.yaml" /\
  resolveUri "path/to/file" (Some "http://domain.example.com/") None
  = "http://domain.example.com/path/to/file".
Proof. by vm_compute. Qed.

(** [isNaN] follows the conversion of strings to numbers: the empty
    string, white space, hexadecimal literals, exponents and [Infinity]
    all convert, so none of them is an extension. *)
Example test_isNaN :
  map JS.isNaN ["yaml"; "3"; ""; " "; "0x1F"; "1e5"; "Infinity"; "12px"; "-0x1"]
  = [true; false; false; false; false; false; false; true; true].
Proof. by vm_compute. Qed.

Example test_fileExtension_numeric_suffixes :
  map (fun name => fileExtension (Some name))
    ["file."; "file. "; "file.0x1F"; "file.1e5"; "file.v2"; "dir.d/file"]
  = [""; ""; ""; ""; "v2"; ""].
Proof. by vm_compute. Qed.

(* ================================================================== *)
(** * Further properties *)

(** ** The protocol detector and the resolver, further *)

Lemma test_append r s t :
  RegExp.test r s = true -> RegExp.test r (s +:+ t) = true.
Proof.
  rewrite !RegExpFacts.test_spec. intros (p & rest & -> & Hm).
  exists p, (rest +:+ t). by rewrite append_assoc.
Qed.

Lemma has_protocol_append s t :
  uriHasProtocol s = true -> uriHasProtocol (s +:+ t) = true.
Proof. apply test_append. Qed.

Lemma has_protocol_first_char c s :
  uriHasProtocol (String c s) = true -> is_scheme_char c = true.
Proof.
  unfold uriHasProtocol. rewrite RegExpFacts.test_spec.
  intros (p & rest & Hs & Hm).
  apply uriProtocolRegex_Matches in Hm as (scheme & -> & Hne & Hall).
  destruct scheme as [|d scheme]; [done|].
  rewrite !append_cons in Hs. injection Hs as -> _.
  simpl in Hall. by apply andb_prop in Hall as [? _].
Qed.

Lemma absolute_has_no_protocol p :
  Path.isAbsolute p = true -> uriHasProtocol p = false.
Proof.
  destruct p as [|c p]; [done|]. intros Habs.
  destruct (uriHasProtocol (String c p)) eqn:Hp; [|done].
  apply has_protocol_first_char in Hp.
  destruct c as [[] [] [] [] [] [] [] []]; done.
Qed.

(** X1.  Having a protocol is a matter of the start of the string alone:
    whatever is appended to a uri that has a protocol, the result has
    one. *)
Theorem uriHasProtocol_append (uri rest : string) :
  uriHasProtocol uri = true -> uriHasProtocol (uri +:+ rest) = true.
Proof.
  unfold uriHasProtocol. rewrite !RegExpFacts.test_spec.
  intros (p & tail & -> & Hm).
  exists p, (tail +:+ rest). split; [|done]. apply append_assoc.
Qed.

Section MoreResolver.
Context `{Collaborators}.

Lemma has_protocol_truthy base :
  uriHasProtocol base = true -> JS.truthy (Some base) = true.
Proof. by destruct base. Qed.

(** The first step of [resolveUri] appends to the uri: the string it
    gives starts with the uri. *)
Lemma resolveUri_qualified uri base ext :
  uriHasProtocol uri = true ->
  resolveUri uri base ext
  = if JS.falsy (fileExtension (Some uri)) && JS.truthy ext
    then JS.concat uri ext else uri.
Proof.
  intros Hp. unfold resolveUri. cbv zeta.
  set (url := if _ && JS.truthy ext then _ else _).
  assert (Hurl : uriHasProtocol url = true).
  { subst url. destruct (_ && JS.truthy ext); [|done].
    destruct ext as [e|]; simpl; by apply has_protocol_append. }
  rewrite Hurl. simpl. rewrite andb_false_r. by rewrite Hurl.
Qed.

(** X2.  A uri that has a protocol is never prefixed: [resolveUri]
    gives the same result whatever the base location, gives the uri
    itself when no default extension is passed, and also when the uri
    has an extension of its own. *)
Theorem resolveUri_qualified_ignores_base
    (uri : string) (baseUri defaultFileExtension : option string) :
  uriHasProtocol uri = true ->
  resolveUri uri baseUri defaultFileExtension
  = resolveUri uri None defaultFileExtension /\
  resolveUri uri baseUri None = uri /\
  (fileExtension (Some uri) <> "" ->
   resolveUri uri baseUri defaultFileExtension = uri).
Proof.
  intros Hp. rewrite !resolveUri_qualified by done. split; [done|].
  split.
  - simpl. by rewrite andb_false_r.
  - intros Hext. by destruct (fileExtension (Some uri)).
Qed.

Lemma resolveUri_protocol uri base ext :
  uriHasProtocol (resolveUri uri base ext) = true.
Proof.
  unfold resolveUri. cbv zeta.
  match goal with
  | |- uriHasProtocol (if negb (uriHasProtocol ?u) then _ else _) = true =>
      destruct (uriHasProtocol u) eqn:Hu; simpl;
      [done|apply file_scheme_has_protocol]
  end.
Qed.

(** X3.  A resolved uri is a fixed point: resolving it again, against
    any base location and with no default extension, changes nothing. *)
Theorem resolveUri_idempotent
    (uri : string) (baseUri defaultFileExtension baseUri' : option string) :
  resolveUri (resolveUri uri baseUri defaultFileExtension) baseUri' None
  = resolveUri uri baseUri defaultFileExtension.
Proof.
  rewrite resolveUri_qualified by apply resolveUri_protocol.
  simpl. by rewrite andb_false_r.
Qed.

Lemma resolveUri_with_qualified_base uri base ext :
  uriHasProtocol base = true ->
  let named :=
    if JS.falsy (fileExtension (Some uri)) && JS.truthy ext
    then JS.concat uri ext else uri in
  uriHasProtocol named = false ->
  resolveUri uri (Some base) ext = base +:+ named.
Proof.
  intros Hbase named Hnamed. unfold resolveUri. cbv zeta. fold named.
  rewrite Hnamed, (has_protocol_truthy base Hbase). simpl.
  by rewrite (has_protocol_append base named Hbase).
Qed.

(** X4.  Under a base location that has a protocol, a uri without one
    is the base followed by the uri, and by the default extension when
    the uri has no extension of its own; the path is not resolved and
    [file://] is not added. *)
Theorem resolveUri_qualified_base (uri base : string) :
  uriHasProtocol base = true -> uriHasProtocol uri = false ->
  resolveUri uri (Some base) None = base +:+ uri /\
  (forall ext, fileExtension (Some uri) <> "" ->
   resolveUri uri (Some base) ext = base +:+ uri) /\
  (forall e, fileExtension (Some uri) = "" -> e <> "" ->
   uriHasProtocol (uri +:+ e) = false ->
   resolveUri uri (Some base) (Some e) = base +:+ uri +:+ e).
Proof.
  intros Hbase Huri. split; [|split].
  - rewrite resolveUri_with_qualified_base; try done.
    + simpl. by rewrite andb_false_r.
    + simpl. by rewrite andb_false_r.
  - intros ext Hext.
    assert (Hf : JS.falsy (fileExtension (Some uri)) = false)
      by by destruct (fileExtension (Some uri)).
    rewrite resolveUri_with_qualified_base; try done; by rewrite Hf.
  - intros e Hext He Hnamed.
    assert (Ht : JS.truthy (Some e) = true) by by destruct e.
    rewrite resolveUri_with_qualified_base; try done; rewrite Hext, Ht; done.
Qed.

End MoreResolver.

(** ** Splitting and base names *)

Lemma split_cons_eq sep c s :
  JS.split sep (String c s) =
  if Ascii.eqb c sep then "" :: JS.split sep s
  else match JS.split sep s with
       | p :: ps => String c p :: ps
       | [] => [String c ""]
       end.
Proof. reflexivity. Qed.

Lemma split_lacks_sep sep s :
  Forall (fun p => lacks sep p = true) (JS.split sep s).
Proof.
  induction s as [|c s IH]; [by repeat constructor|].
  rewrite split_cons_eq. destruct (Ascii.eqb c sep) eqn:Hc.
  - by constructor.
  - destruct (JS.split sep s) as [|p ps].
    + repeat constructor. unfold lacks. simpl. by rewrite Hc.
    + inversion IH as [|? ? Hp Hps]; subst. constructor; [|done].
      unfold lacks in *. simpl. by rewrite Hc.
Qed.

Lemma split_lacks_other c sep s :
  lacks c s = true -> Forall (fun p => lacks c p = true) (JS.split sep s).
Proof.
  unfold lacks. induction s as [|d s IH]; simpl; [by repeat constructor|].
  intros [Hd Hs]%andb_prop. specialize (IH Hs).
  destruct (Ascii.eqb d sep).
  - by constructor.
  - destruct (JS.split sep s) as [|p ps].
    + repeat constructor. simpl. by rewrite Hd.
    + inversion IH; subst. constructor; [|done]. simpl. by rewrite Hd.
Qed.

Lemma last_part_Forall (P : string -> Prop) parts :
  P "" -> Forall P parts -> P (JS.last_part parts).
Proof.
  intros Hnil Hall. unfold JS.last_part.
  destruct (last parts) as [p|] eqn:Hl; [|done].
  apply last_Some in Hl as [l' ->]. apply Forall_app in Hall as [_ Hp].
  by inversion Hp.
Qed.

Lemma split_not_nil sep s : JS.split sep s <> [].
Proof.
  destruct s as [|c s]; [done|]. rewrite split_cons_eq.
  destruct (Ascii.eqb c sep); [done|]. by destruct (JS.split sep s).
Qed.

Lemma split_single sep s p : JS.split sep s = [p] -> s = p.
Proof.
  revert p. induction s as [|d s IH]; intros p Hs.
  - by injection Hs as <-.
  - rewrite split_cons_eq in Hs. destruct (Ascii.eqb d sep).
    + injection Hs as _ Hs. by apply split_not_nil in Hs.
    + destruct (JS.split sep s) as [|p' ps] eqn:Hs'.
      { by apply split_not_nil in Hs'. }
      injection Hs as <- ->. by rewrite (IH p' eq_refl).
Qed.

Lemma last_part_cons x p ps :
  JS.last_part (x :: p :: ps) = JS.last_part (p :: ps).
Proof. unfold JS.last_part. rewrite !last_cons. by destruct (last ps). Qed.

(** With two parts or more, the string ends with the separator and the
    last part. *)
Lemma split_last sep s :
  2 <= length (JS.split sep s) ->
  exists stem, s = stem +:+ String sep "" +:+ JS.last_part (JS.split sep s).
Proof.
  induction s as [|c s IH]; [simpl; lia|].
  rewrite split_cons_eq. destruct (Ascii.eqb c sep) eqn:Hc.
  - apply Ascii.eqb_eq in Hc as ->. intros _.
    destruct (JS.split sep s) as [|p ps] eqn:Hs.
    { by apply split_not_nil in Hs. }
    destruct ps as [|q qs].
    + exists "". apply split_single in Hs as ->. done.
    + destruct IH as [stem Hstem]; [simpl; lia|].
      exists (String sep stem). rewrite append_cons. f_equal.
      rewrite Hstem at 1. by rewrite last_part_cons.
  - destruct (JS.split sep s) as [|p ps] eqn:Hs; [simpl; lia|].
    simpl. intros Hlen. destruct IH as [stem Hstem]; [simpl; lia|].
    exists (String c stem). rewrite append_cons. f_equal.
    rewrite Hstem at 1. 
    destruct ps as [|q qs]; [simpl in Hlen; lia|].
    by rewrite !last_part_cons.
Qed.

Lemma chars_append s t : Path.chars (s +:+ t) = Path.chars s ++ Path.chars t.
Proof.
  induction s as [|c s IH]; [done|].
  rewrite append_cons. simpl. by rewrite <- IH.
Qed.

Lemma text_app l1 l2 : Path.text (l1 ++ l2) = Path.text l1 +:+ Path.text l2.
Proof.
  induction l1 as [|c l1 IH]; [done|].
  simpl. by rewrite append_cons, <- IH.
Qed.

Lemma text_chars s : Path.text (Path.chars s) = s.
Proof. apply String.string_of_list_ascii_of_string. Qed.

Lemma skip_seps_spec l :
  exists seps, l = seps ++ Path.skip_seps l /\
               Forall (fun c => Path.is_sep c = true) seps.
Proof.
  induction l as [|c l (seps & Hl & Hs)]; simpl.
  - by exists [].
  - destruct (Path.is_sep c) eqn:Hc.
    + exists (c :: seps). simpl. rewrite <- Hl. split; [done|]. by constructor.
    + by exists [].
Qed.

Lemma until_sep_spec l :
  exists rest, l = Path.until_sep l ++ rest /\
               Forall (fun c => Path.is_sep c = false) (Path.until_sep l).
Proof.
  induction l as [|c l (rest & Hl & Hs)]; simpl.
  - by exists [].
  - destruct (Path.is_sep c) eqn:Hc.
    + by exists (c :: l).
    + exists rest. simpl. rewrite <- Hl. split; [done|]. by constructor.
Qed.

Lemma all_chars_text p l :
  JS.all_chars p (Path.text l) = true <-> Forall (fun c => p c = true) l.
Proof.
  induction l as [|c l IH]; simpl.
  - split; [constructor|done].
  - rewrite andb_true_iff, IH. split.
    + intros [? ?]. by constructor.
    + by inversion 1.
Qed.

(** The name is a directory part, the base name, and trailing
    separators. *)
Lemma basename_decompose p :
  exists dir slashes,
    p = dir +:+ Path.basename p +:+ slashes /\
    JS.all_chars Path.is_sep slashes = true /\
    lacks "/" (Path.basename p) = true.
Proof.
  unfold Path.basename.
  destruct (skip_seps_spec (rev (Path.chars p))) as (seps & Hrev & Hseps).
  destruct (until_sep_spec (Path.skip_seps (rev (Path.chars p))))
    as (rest & Hskip & Hseg).
  set (seg := Path.until_sep (Path.skip_seps (rev (Path.chars p)))) in *.
  exists (Path.text (rev rest)), (Path.text (rev seps)).
  split; [|split].
  - rewrite <- !text_app, <- !rev_app_distr, <- app_assoc, <- Hskip, <- Hrev.
    by rewrite rev_involutive, text_chars.
  - apply all_chars_text. by apply Forall_rev.
  - apply all_chars_text, Forall_rev.
    eapply Forall_impl; [exact Hseg|].
    intros c Hc. unfold Path.is_sep in Hc. by rewrite Hc.
Qed.

Lemma until_sep_app seg l :
  Forall (fun c => Path.is_sep c = false) seg ->
  Path.until_sep (seg ++ "/"%char :: l) = seg.
Proof. induction 1 as [|c seg Hc _ IH]; simpl; [done|]. by rewrite Hc, IH. Qed.

Lemma until_sep_all seg :
  Forall (fun c => Path.is_sep c = false) seg -> Path.until_sep seg = seg.
Proof. induction 1 as [|c seg Hc _ IH]; simpl; [done|]. by rewrite Hc, IH. Qed.

Lemma lacks_sep_chars file :
  lacks "/" file = true ->
  Forall (fun c => Path.is_sep c = false) (Path.chars file).
Proof.
  unfold lacks. induction file as [|c file IH]; simpl; [constructor|].
  intros [Hc Hf]%andb_prop. constructor; [|by apply IH].
  unfold Path.is_sep. by apply negb_true_iff in Hc.
Qed.

Lemma skip_seps_no_sep l c :
  Path.is_sep c = false -> Path.skip_seps (c :: l) = c :: l.
Proof. intros Hc. simpl. by rewrite Hc. Qed.

Lemma basename_trailing_slash p : Path.basename (p +:+ "/") = Path.basename p.
Proof.
  unfold Path.basename. rewrite chars_append, rev_app_distr. done.
Qed.

Lemma basename_plain file :
  lacks "/" file = true -> Path.basename file = file.
Proof.
  intros Hf%lacks_sep_chars. unfold Path.basename.
  apply Forall_rev in Hf.
  assert (Hskip : Path.skip_seps (rev (Path.chars file)) = rev (Path.chars file)).
  { destruct Hf as [|c l Hc _]; [done|]. by apply skip_seps_no_sep. }
  rewrite Hskip, (until_sep_all _ Hf), rev_involutive. apply text_chars.
Qed.

Lemma basename_in_directory dir file :
  file <> "" -> lacks "/" file = true ->
  Path.basename (dir +:+ "/" +:+ file) = file.
Proof.
  intros Hne Hf. pose proof (lacks_sep_chars _ Hf) as Hc.
  unfold Path.basename. rewrite !chars_append, !rev_app_distr.
  apply Forall_rev in Hc.
  assert (Hskip : forall l,
    Path.skip_seps (rev (Path.chars file) ++ l) = rev (Path.chars file) ++ l).
  { intros l. destruct (rev (Path.chars file)) as [|c l'] eqn:Hr.
    - apply (f_equal (@rev ascii)) in Hr. rewrite rev_involutive in Hr.
      apply (f_equal Path.text) in Hr. by rewrite text_chars in Hr.
    - inversion Hc; subst. by apply skip_seps_no_sep. }
  rewrite <- app_assoc, Hskip. simpl.
  rewrite (until_sep_app _ _ Hc), rev_involutive. apply text_chars.
Qed.

(** ** The extension detector, further *)

Lemma until_sep_app_keep seg l :
  Forall (fun c => Path.is_sep c = false) seg ->
  Path.until_sep (seg ++ l) = seg ++ Path.until_sep l.
Proof. induction 1 as [|c seg Hc _ IH]; simpl; [done|]. by rewrite Hc, IH. Qed.

(** The base name of a name that ends with a component [b]: what the
    last component of the rest adds in front of [b]. *)
Lemma basename_append a b :
  b <> "" -> lacks "/" b = true ->
  exists a', Path.basename (a +:+ b) = a' +:+ b.
Proof.
  intros Hne Hb. pose proof (lacks_sep_chars _ Hb) as Hc.
  apply Forall_rev in Hc.
  unfold Path.basename. rewrite chars_append, rev_app_distr.
  assert (Hskip : forall l,
    Path.skip_seps (rev (Path.chars b) ++ l) = rev (Path.chars b) ++ l).
  { intros l. destruct (rev (Path.chars b)) as [|c l'] eqn:Hr.
    - apply (f_equal (@rev ascii)) in Hr. rewrite rev_involutive in Hr.
      apply (f_equal Path.text) in Hr. by rewrite text_chars in Hr.
    - inversion Hc; subst. by apply skip_seps_no_sep. }
  rewrite Hskip, (until_sep_app_keep _ _ Hc), rev_app_distr, rev_involutive.
  rewrite text_app, text_chars. by eexists.
Qed.

Lemma split_lacks_single sep t : lacks sep t = true -> JS.split sep t = [t].
Proof.
  unfold lacks. induction t as [|c t IH]; simpl; [done|].
  intros [Hc Ht]%andb_prop. apply negb_true_iff in Hc. rewrite Hc.
  by rewrite (IH Ht).
Qed.

Lemma split_snoc sep s t :
  lacks sep t = true ->
  JS.split sep (s +:+ String sep "" +:+ t) = JS.split sep s ++ [t].
Proof.
  intros Ht. induction s as [|c s IH].
  - rewrite append_nil_l, append_cons, append_nil_l, split_cons_eq.
    by rewrite Ascii.eqb_refl, (split_lacks_single _ _ Ht).
  - rewrite append_cons, !split_cons_eq, IH.
    destruct (Ascii.eqb c sep); [done|].
    destruct (JS.split sep s) as [|p ps] eqn:Hs; [|done].
    by apply split_not_nil in Hs.
Qed.

Lemma lacks_append c s t :
  lacks c (s +:+ t) = lacks c s && lacks c t.
Proof. apply NumericFacts.all_chars_app. Qed.

(** X6.  What [fileExtension] returns holds no dot and no slash, and is
    either empty or not a number. *)
Theorem fileExtension_well_formed (filename : option string) :
  let ext := fileExtension filename in
  lacks "." ext = true /\ lacks "/" ext = true /\
  (ext = "" \/ ~ Numeric.StringNumericLiteral ext).
Proof.
  cbv zeta. destruct filename as [filename|]; [|by auto].
  unfold fileExtension. destruct (JS.falsy filename); [by auto|]. cbv zeta.
  set (parts := JS.split "." (Path.basename filename)).
  destruct (1 <? length parts); simpl; [|by auto].
  destruct (JS.isNaN (JS.last_part parts)) eqn:Hnan; [|by auto].
  split; [|split].
  - apply (last_part_Forall (fun p => lacks "." p = true)); [done|].
    apply split_lacks_sep.
  - apply (last_part_Forall (fun p => lacks "/" p = true)); [done|].
    apply split_lacks_other.
    by destruct (basename_decompose filename) as (? & ? & _ & _ & ?).
  - right. by apply NumericFacts.isNaN_true_iff.
Qed.

(** X7.  A non-empty result of [fileExtension] is the end of the name:
    the name is some stem, a dot, the extension, and nothing after it but
    slashes. *)
Theorem fileExtension_is_suffix (filename : string) :
  fileExtension (Some filename) <> "" ->
  exists stem slashes,
    filename = stem +:+ "." +:+ fileExtension (Some filename) +:+ slashes /\
    JS.all_chars Path.is_sep slashes = true.
Proof.
  unfold fileExtension. destruct (JS.falsy filename); [done|]. cbv zeta.
  destruct (basename_decompose filename) as (dir & slashes & Hname & Hsl & _).
  set (parts := JS.split "." (Path.basename filename)) in *.
  destruct (Nat.ltb_spec 1 (length parts)) as [Hlen|Hlen]; simpl; [|done].
  destruct (JS.isNaN (JS.last_part parts)); [|done]. intros _.
  destruct (split_last "." (Path.basename filename) Hlen) as [stem Hstem].
  fold parts in Hstem.
  exists (dir +:+ stem), slashes. split; [|done].
  rewrite Hname at 1. rewrite Hstem at 1. by rewrite !append_assoc.
Qed.

(** X8.  Conversely, for a stem and a non-empty [ext] without dot or
    slash that is not a number, the extension of [stem.ext] is [ext]. *)
Theorem fileExtension_of_suffix (stem ext : string) :
  ext <> "" -> lacks "." ext = true -> lacks "/" ext = true ->
  ~ Numeric.StringNumericLiteral ext ->
  fileExtension (Some (stem +:+ "." +:+ ext)) = ext.
Proof.
  intros Hne Hdot Hsep Hnum. apply NumericFacts.isNaN_true_iff in Hnum.
  unfold fileExtension.
  assert (Hfalsy : JS.falsy (stem +:+ "." +:+ ext) = false).
  { destruct stem; done. }
  rewrite Hfalsy. cbv zeta.
  destruct (basename_append stem ("." +:+ ext)) as [a' Hbase]; [done| |].
  { by rewrite lacks_append, Hsep. }
  rewrite Hbase, (split_snoc "." a' ext Hdot).
  assert (Hlast : JS.last_part (JS.split "." a' ++ [ext]) = ext).
  { unfold JS.last_part. by rewrite last_snoc. }
  rewrite Hlast, Hnum, length_app. simpl.
  destruct (JS.split "." a') as [|p ps] eqn:Hs;
    [by apply split_not_nil in Hs|].
  simpl. by destruct (length ps + 1) eqn:Hl; [lia|].
Qed.

Lemma fileExtension_basename filename filename' :
  JS.falsy filename = JS.falsy filename' ->
  Path.basename filename = Path.basename filename' ->
  fileExtension (Some filename) = fileExtension (Some filename').
Proof. intros Hf Hb. unfold fileExtension. by rewrite Hf, Hb. Qed.

(** X9.  Only the last component of a path counts: the directory in
    front of a file name, dots included, and a slash after it do not
    change the extension. *)
Theorem fileExtension_ignores_directory (dir file : string) :
  file <> "" -> lacks "/" file = true ->
  fileExtension (Some (dir +:+ "/" +:+ file)) = fileExtension (Some file) /\
  fileExtension (Some (dir +:+ "/" +:+ file +:+ "/")) = fileExtension (Some file).
Proof.
  intros Hne Hf. split.
  - apply fileExtension_basename.
    + destruct dir, file; done.
    + by rewrite basename_in_directory, basename_plain.
  - apply fileExtension_basename.
    + destruct dir, file; done.
    + rewrite <- !append_assoc, basename_trailing_slash, !append_assoc.
      by rewrite basename_in_directory, basename_plain.
Qed.

(** ** The working directory as base location *)

Section ResolverPaths.
Context `{Collaborators}.

Lemma cwd_slash_absolute rest :
  Path.isAbsolute (process_cwd +:+ rest) = true.
Proof.
  pose proof process_cwd_absolute as Hcwd.
  destruct process_cwd as [|c cwd]; [done|]. by rewrite append_cons.
Qed.

Lemma resolve_under_cwd p :
  p <> "" -> Path.isAbsolute p = false ->
  Path.resolve process_cwd (process_cwd +:+ "/" +:+ p)
  = Path.resolve process_cwd p.
Proof.
  intros Hne Hrel. pose proof process_cwd_absolute as Hcwd.
  unfold Path.resolve.
  assert (Hf1 : JS.falsy (process_cwd +:+ "/" +:+ p) = false).
  { destruct process_cwd; done. }
  assert (Hf2 : JS.falsy p = false) by by destruct p.
  assert (Hf3 : JS.falsy process_cwd = false) by by destruct process_cwd.
  rewrite Hf1, Hf2, Hf3, Hrel, cwd_slash_absolute, Hcwd.
  by rewrite !append_assoc.
Qed.

(** X5.  For a non-empty relative path without protocol, the working
    directory (with its slash) as base location gives what no base
    location gives, whatever the default extension. *)
Theorem resolveUri_working_directory_base
    (uri : string) (defaultFileExtension : option string) :
  uri <> "" -> Path.isAbsolute uri = false ->
  uriHasProtocol uri = false ->
  resolveUri uri (Some (process_cwd +:+ "/")) defaultFileExtension
  = resolveUri uri None defaultFileExtension.
Proof.
  intros Hne Hrel Hp. unfold resolveUri. cbv zeta.
  set (named := if _ && JS.truthy defaultFileExtension then _ else _).
  assert (Hnamed : named <> "" /\ Path.isAbsolute named = false).
  { subst named. destruct (_ && JS.truthy defaultFileExtension) eqn:Hc.
    - apply andb_prop in Hc as [_ Hc].
      destruct defaultFileExtension as [e|]; [|done]. simpl in *.
      destruct uri; done.
    - done. }
  destruct Hnamed as (Hn1 & Hn2).
  assert (Htruthy : JS.truthy (Some (process_cwd +:+ "/")) = true).
  { pose proof process_cwd_absolute. by destruct process_cwd. }
  rewrite Htruthy.
  destruct (uriHasProtocol named) eqn:Hn3; simpl; [by rewrite Hn3|].
  rewrite append_assoc.
  rewrite (absolute_has_no_protocol _ (cwd_slash_absolute _)). simpl.
  rewrite resolve_under_cwd by done. by rewrite Hn3.
Qed.

End ResolverPaths.

(** ** Fetching and falling back, further *)

Section MoreFetcher.
Context `{Collaborators}.

(** X10.  An absolute path is never taken for a URL: [urlGet] reads
    that very path with [readFile], once, and writes nothing. *)
Theorem urlGet_absolute_path (url : string) (options : loc) (w : World) :
  Path.isAbsolute url = true ->
  let o := fields_of options w in
  urlGet url (Some options) w
  = (settle (fs_readFile (log w) url o),
     mkWorld (heap w) (log w ++ [ReadFile url o])).
Proof.
  intros Habs. cbv zeta.
  by rewrite urlGet_local by by apply absolute_has_no_protocol.
Qed.

(** X11.  [urlGetObject] on a path without protocol: what [readFile]
    gives is decoded by [objectFactory]; a failed read is the failure,
    and nothing is decoded.  One read is made and nothing is written. *)
Theorem urlGetObject_local_path (url : string) (options : loc) (w : World) :
  uriHasProtocol url = false ->
  let o := fields_of options w in
  urlGetObject url (Some options) w
  = (match fs_readFile (log w) url o with
     | inl content => objectFactory content
     | inr e => Rejected (Foreign e)
     end,
     mkWorld (heap w) (log w ++ [ReadFile url o])).
Proof.
  intros Hp. cbv zeta. rewrite urlGetObject_eq, urlGet_local by done.
  unfold readFile. by destruct (fs_readFile _ _ _).
Qed.

Lemma try_in_order_singleton url l e w :
  try_in_order [url] l e w = in_handler (urlGetObject url (Some l)) w.
Proof.
  simpl. by destruct (in_handler (urlGetObject url (Some l)) w) as [[v|e'] w'].
Qed.

(** Only the URL parser makes [urlGetObject] throw. *)
Lemma urlGetObject_returns url l w :
  JS.startsWith url "file://" = false ->
  in_handler (urlGetObject url (Some l)) w = urlGetObject url (Some l) w.
Proof.
  intros Hf. unfold in_handler. rewrite urlGetObject_eq.
  destruct (uriHasProtocol url) eqn:Hp.
  - rewrite urlGet_remote by done. cbv zeta.
    destruct (http_get _ _ _).1 as [response|e]; [|done].
    destruct (preq_accepts (status response)); [|done].
    unfold objectFactory, safeLoad_if_string, settle.
    by repeat case_match.
  - rewrite urlGet_local by done. unfold readFile, settle.
    destruct (fs_readFile _ _ _) as [content|e]; [|done].
    unfold objectFactory, safeLoad_if_string, settle.
    by repeat case_match.
Qed.

(** X12.  With one candidate, array or not, [urlGetFirstObject] is the
    call of [urlGetObject] on it made from a promise handler: the result
    and the effects are those of [urlGetObject], except that what
    [urlGetObject] throws is the rejection of the promise returned; the
    seed rejection is never seen.  On a candidate that does not start
    with [file://], [urlGetObject] does not throw, and the two are the
    same. *)
Theorem urlGetFirstObject_singleton (url : string) (options : loc) (w : World) :
  urlGetFirstObject (IsArray [url]) (Some options) w
  = in_handler (urlGetObject url (Some options)) w /\
  urlGetFirstObject (NotArray url) (Some options) w
  = in_handler (urlGetObject url (Some options)) w /\
  (JS.startsWith url "file://" = false ->
   urlGetFirstObject (IsArray [url]) (Some options) w
   = urlGetObject url (Some options) w).
Proof.
  rewrite !urlGetFirstObject_loop. simpl ensure_array.
  rewrite try_in_order_singleton. split; [done|]. split; [done|].
  apply urlGetObject_returns.
Qed.

Lemma try_in_order_app urls more l e w :
  try_in_order (urls ++ more) l e w
  = match try_in_order urls l e w with
    | (Resolved v, w') => (Resolved v, w')
    | (Rejected e', w') => try_in_order more l e' w'
    end.
Proof.
  revert e w. induction urls as [|url rest IH]; intros e w; simpl; [done|].
  destruct (in_handler (urlGetObject url (Some l)) w) as [[v|e'] w'];
    [done|].
  apply IH.
Qed.

Lemma try_in_order_seed url rest l e e' w :
  try_in_order (url :: rest) l e w = try_in_order (url :: rest) l e' w.
Proof. reflexivity. Qed.

(** X13.  Fallback lists concatenate: on [urls ++ more], with [more]
    not empty, a success among [urls] is the result and [more] is not
    touched; after the failure of all of [urls], the result is that of
    [more] run in the world they left. *)
Theorem urlGetFirstObject_append
    (urls more : list string) (options : loc) (w : World) :
  more <> [] ->
  urlGetFirstObject (IsArray (urls ++ more)) (Some options) w
  = match urlGetFirstObject (IsArray urls) (Some options) w with
    | (Resolved v, w') => (Resolved v, w')
    | (Rejected _, w') => urlGetFirstObject (IsArray more) (Some options) w'
    end.
Proof.
  intros Hmore. rewrite !urlGetFirstObject_loop. simpl ensure_array.
  rewrite try_in_order_app.
  destruct (try_in_order urls options NoReason w) as [[v|e'] w']; [done|].
  rewrite urlGetFirstObject_loop. simpl ensure_array.
  destruct more as [|url rest]; [done|]. apply try_in_order_seed.
Qed.




Lemma is_remote_false url :
  is_remote url = false ->
  uriHasProtocol url = false \/ JS.startsWith url "file://" = true.
Proof.
  unfold is_remote. destruct (uriHasProtocol url); [|by left].
  destruct (JS.startsWith url "file://"); [by right|done].
Qed.

Lemma try_in_order_local urls l e w :
  Forall (fun url => is_remote url = false) urls ->
  heap (try_in_order urls l e w).2 = heap w.
Proof.
  intros Hall. revert e w.
  induction Hall as [|url rest Hurl _ IH]; intros e w; simpl; [done|].
  pose proof (urlGet_local_heap url l w (is_remote_false _ Hurl)) as Hh.
  rewrite <- attempt_world in Hh.
  destruct (in_handler (urlGetObject url (Some l)) w) as [[v|e'] w'];
    [done|].
  simpl in Hh. by rewrite IH.
Qed.

(** X15.  When no candidate is remote, [urlGetFirstObject] writes
    nothing: the heap is as before, whatever the result. *)
Theorem urlGetFirstObject_local_candidates
    (urls : MaybeArray string) (options : loc) (w : World) :
  Forall (fun url => is_remote url = false) (ensure_array urls) ->
  heap (urlGetFirstObject urls (Some options) w).2 = heap w.
Proof.
  intros Hall. rewrite urlGetFirstObject_loop. by apply try_in_order_local.
Qed.

Lemma urlGet_uri_field url l w :
  client_keeps_uri ->
  fields_of l (urlGet url (Some l) w).2 !! "uri"
  = if is_remote url then Some (JString url) else fields_of l w !! "uri".
Proof.
  intros Hkeeps. destruct (is_remote url) eqn:Hr.
  - unfold is_remote in Hr. apply andb_prop in Hr as [Hp Hf%negb_true_iff].
    rewrite urlGet_remote by done. cbv zeta. unfold fields_of at 1. simpl.
    rewrite Hkeeps, lookup_insert_eq. simpl. by rewrite lookup_insert_eq.
  - apply is_remote_false in Hr. unfold fields_of.
    by rewrite urlGet_local_heap.
Qed.

Lemma try_in_order_failed_uri urls l e w :
  client_keeps_uri ->
  (exists e', (try_in_order urls l e w).1 = Rejected e') ->
  fields_of l (try_in_order urls l e w).2 !! "uri"
  = match last_remote urls with
    | Some url => Some (JString url)
    | None => fields_of l w !! "uri"
    end.
Proof.
  intros Hkeeps. revert e w.
  induction urls as [|url rest IH]; intros e w; simpl; [done|].
  pose proof (urlGet_uri_field url l w Hkeeps) as Hf.
  rewrite <- attempt_world in Hf.
  destruct (in_handler (urlGetObject url (Some l)) w) as [[v|e'] w'];
    simpl in *.
  { by intros [? ?]. }
  intros Hrej. rewrite (IH e' w' Hrej), Hf.
  by destruct (last_remote rest) as [u|], (is_remote url).
Qed.

(** X16.  With an HTTP client that leaves the field [uri] of the object
    it is handed as it finds it, the options object holds, after the
    failure of every candidate, the last remote candidate of the list in
    [uri]; without a remote candidate its [uri] is as it was. *)
Theorem urlGetFirstObject_failure_leaves_uri
    (urls : MaybeArray string) (options : loc) (w : World) (e : Reason) :
  client_keeps_uri ->
  (urlGetFirstObject urls (Some options) w).1 = Rejected e ->
  fields_of options (urlGetFirstObject urls (Some options) w).2 !! "uri"
  = match last_remote (ensure_array urls) with
    | Some url => Some (JString url)
    | None => fields_of options w !! "uri"
    end.
Proof.
  intros Hkeeps. rewrite urlGetFirstObject_loop. intros Hrej.
  apply try_in_order_failed_uri; [done|]. by exists e.
Qed.

(** X17.  The options object is shared by the attempts: when the
    attempt on a remote candidate fails and a path follows it,
    [readFile] is called on the path with the options object as that
    attempt left it: as the HTTP client left the object into which the
    module had written the url of the remote candidate. *)
Theorem urlGetFirstObject_uri_reaches_next_read
    (remote path : string) (options : loc) (w : World) (e : Reason) :
  is_remote remote = true -> uriHasProtocol path = false ->
  (urlGetObject remote (Some options) w).1 = Rejected e ->
  let request := <["uri" := JString remote]> (fields_of options w) in
  let left :=
    (http_get (log w) (<[options := request]> (heap w)) options).2 in
  log (urlGetFirstObject (IsArray [remote; path]) (Some options) w).2
  = log w ++ [HttpGet request; ReadFile path (default ∅ (left !! options))].
Proof.
  intros Hr Hp Hfail request left.
  unfold is_remote in Hr. apply andb_prop in Hr as [Hrp Hrf%negb_true_iff].
  rewrite urlGetFirstObject_loop. simpl.
  rewrite (urlGetObject_returns remote) by done.
  pose proof (urlGetObject_world remote options w) as Hworld.
  rewrite urlGet_remote in Hworld by done. cbv zeta in Hworld.
  fold request in Hworld. fold left in Hworld.
  destruct (urlGetObject remote (Some options) w) as [[v|e'] w1];
    simpl in Hfail, Hworld; [done|]. subst w1.
  set (w1 := mkWorld left (log w ++ [HttpGet request])).
  pose proof (attempt_world path options w1) as Hnext.
  rewrite urlGet_local in Hnext by done.
  destruct (in_handler (urlGetObject path (Some options)) w1) as [[v|e0] w2];
    simpl in Hnext; subst w2; simpl; by rewrite <- app_assoc.
Qed.

Lemma map_resolveUri_qualified uri ext (bases : list (option string)) :
  uriHasProtocol uri = true ->
  map (fun b => resolveUri uri b ext) bases
  = replicate (length bases) (resolveUri uri None ext).
Proof.
  intros Hp. induction bases as [|b bases IH]; simpl; [done|].
  by rewrite IH, (resolveUri_qualified uri b), (resolveUri_qualified uri None).
Qed.

(** X18.  For a uri that has a protocol the base locations only count:
    [uriGetFirstObject] tries the same url once per base location. *)
Theorem uriGetFirstObject_qualified
    (uri : string) (baseUris : MaybeArray (option string))
    (ext : option string) (options : loc) (w : World) :
  uriHasProtocol uri = true ->
  uriGetFirstObject uri baseUris ext (Some options) w
  = urlGetFirstObject
      (IsArray (replicate (length (ensure_array baseUris))
                  (resolveUri uri None ext)))
      (Some options) w.
Proof.
  intros Hp. by rewrite uriGetFirstObject_unfold, map_resolveUri_qualified.
Qed.

(** X19.  With one base location, array or not, [uriGetFirstObject] is
    the call of [urlGetObject] on the resolved uri made from a promise
    handler: what [urlGetObject] throws is the rejection of the promise
    returned.  When the resolved uri does not start with [file://],
    [urlGetObject] does not throw, and the two are the same. *)
Theorem uriGetFirstObject_single_base
    (uri : string) (baseUri ext : option string) (options : loc) (w : World) :
  uriGetFirstObject uri (NotArray baseUri) ext (Some options) w
  = in_handler (urlGetObject (resolveUri uri baseUri ext) (Some options)) w /\
  uriGetFirstObject uri (IsArray [baseUri]) ext (Some options) w
  = in_handler (urlGetObject (resolveUri uri baseUri ext) (Some options)) w /\
  (JS.startsWith (resolveUri uri baseUri ext) "file://" = false ->
   uriGetFirstObject uri (IsArray [baseUri]) ext (Some options) w
   = urlGetObject (resolveUri uri baseUri ext) (Some options) w).
Proof.
  rewrite !uriGetFirstObject_unfold, !urlGetFirstObject_loop.
  simpl ensure_array. simpl map. rewrite try_in_order_singleton.
  split; [done|]. split; [done|]. apply urlGetObject_returns.
Qed.

Lemma fresh_not_held (w : World) l o :
  heap w !! l = Some o -> l <> fresh (dom (heap w)).
Proof.
  intros Hl ->. apply (is_fresh (dom (heap w))).
  apply elem_of_dom. by eexists.
Qed.

(** An object the caller holds is out of the reach of the object the
    default parameter makes. *)
Lemma default_world_out_of_reach (w : World) l o :
  heap w !! l = Some o ->
  out_of_reach (fresh (dom (heap w)))
    (mkWorld (<[fresh (dom (heap w)) := ∅]> (heap w)) (log w)) l.
Proof.
  intros Hl. pose proof (fresh_not_held w l o Hl) as Hne. split; simpl.
  - rewrite lookup_insert_ne by done. by exists o.
  - intros Hreach. apply reachable_empty in Hreach; [done|].
    by rewrite lookup_insert_eq.
Qed.

Lemma default_world_held (w : World) l o :
  heap w !! l = Some o ->
  <[fresh (dom (heap w)) := ∅]> (heap w) !! l = Some o.
Proof.
  intros Hl. rewrite lookup_insert_ne; [done|].
  symmetry. by eapply fresh_not_held.
Qed.

(** X20.  Called without options, each of the four entry points works
    on an object of its own: every object of the heap is as before. *)
Theorem default_options_are_fresh
    (url uri : string) (urls : MaybeArray string)
    (baseUris : MaybeArray (option string)) (ext : option string)
    (w : World) (l : loc) (o : gmap string JSValue) :
  heap w !! l = Some o ->
  heap (urlGet url None w).2 !! l = Some o /\
  heap (urlGetObject url None w).2 !! l = Some o /\
  heap (urlGetFirstObject urls None w).2 !! l = Some o /\
  heap (uriGetFirstObject uri baseUris ext None w).2 !! l = Some o.
Proof.
  intros Hl.
  pose proof (default_world_out_of_reach w l o Hl) as Hfar.
  pose proof (default_world_held w l o Hl) as Hheld.
  set (options := fresh (dom (heap w))) in *.
  set (w0 := mkWorld (<[options := ∅]> (heap w)) (log w)) in *.
  split; [|split; [|split]].
  - change (urlGet url None w) with (urlGet url (Some options) w0).
    by rewrite (proj1 (urlGet_frame url options w0 l Hfar)).
  - change (urlGetObject url None w)
      with (urlGetObject url (Some options) w0).
    by rewrite urlGetObject_world, (proj1 (urlGet_frame url options w0 l Hfar)).
  - change (urlGetFirstObject urls None w)
      with (urlGetFirstObject urls (Some options) w0).
    rewrite urlGetFirstObject_loop.
    by rewrite (proj1 (try_in_order_frame _ options _ w0 l Hfar)).
  - change (uriGetFirstObject uri baseUris ext None w)
      with (uriGetFirstObject uri baseUris ext (Some options) w0).
    rewrite uriGetFirstObject_unfold, urlGetFirstObject_loop.
    by rewrite (proj1 (try_in_order_frame _ options _ w0 l Hfar)).
Qed.

End MoreFetcher.

(** ** The further properties at concrete inputs *)

Lemma uriHasProtocol_append_witness :
  uriHasProtocol ("http://example.org/" +:+ "doc.yaml") = true.
Proof.
  apply (uriHasProtocol_append "http://example.org/" "doc.yaml").
  vm_compute. reflexivity.
Defined.

Lemma resolveUri_qualified_ignores_base_witness :
  @resolveUri Demo.collaborators "http://example.org/doc" (Some "/srv/app/")
    None
  = "http://example.org/doc".
Proof.
  apply (proj1 (proj2 (@resolveUri_qualified_ignores_base Demo.collaborators
    "http://example.org/doc" (Some "/srv/app/") None eq_refl))).
Defined.

Lemma resolveUri_qualified_base_witness :
  @resolveUri Demo.collaborators "path/to/file"
    (Some "http://domain.example.com/") (Some ".yaml")
  = "http://domain.example.com/" +:+ "path/to/file" +:+ ".yaml".
Proof.
  apply (proj2 (proj2 (@resolveUri_qualified_base Demo.collaborators
    "path/to/file" "http://domain.example.com/" eq_refl eq_refl))).
  - reflexivity.
  - discriminate.
  - vm_compute. reflexivity.
Defined.

Lemma resolveUri_working_directory_base_witness :
  @resolveUri Demo.collaborators "path/to/file" (Some ("/srv/app" +:+ "/"))
    (Some ".yaml")
  = @resolveUri Demo.collaborators "path/to/file" None (Some ".yaml").
Proof.
  apply (@resolveUri_working_directory_base Demo.collaborators
    "path/to/file" (Some ".yaml")).
  - discriminate.
  - reflexivity.
  - reflexivity.
Defined.

Lemma fileExtension_is_suffix_witness :
  exists stem slashes,
    "path/to/file.yaml"
    = stem +:+ "." +:+ fileExtension (Some "path/to/file.yaml") +:+ slashes /\
    JS.all_chars Path.is_sep slashes = true.
Proof.
  apply (fileExtension_is_suffix "path/to/file.yaml").
  vm_compute. discriminate.
Defined.

Lemma fileExtension_of_suffix_witness :
  fileExtension (Some ("path/to/file" +:+ "." +:+ "yaml")) = "yaml".
Proof.
  apply (fileExtension_of_suffix "path/to/file" "yaml").
  - discriminate.
  - reflexivity.
  - reflexivity.
  - apply NumericFacts.isNaN_true_iff. reflexivity.
Defined.

Lemma fileExtension_ignores_directory_witness :
  fileExtension (Some ("conf.d" +:+ "/" +:+ "schema"))
  = fileExtension (Some "schema").
Proof.
  apply (proj1 (fileExtension_ignores_directory "conf.d" "schema"
    ltac:(discriminate) eq_refl)).
Defined.

Lemma urlGet_absolute_path_witness :
  @urlGet Demo.collaborators "/tmp/_mocha_test_file.yaml" (Some Demo.options)
    Demo.world
  = (Resolved (JString Demo.document),
     mkWorld (heap Demo.world) [ReadFile "/tmp/_mocha_test_file.yaml" ∅]).
Proof.
  exact (@urlGet_absolute_path Demo.collaborators
    "/tmp/_mocha_test_file.yaml" Demo.options Demo.world eq_refl).
Defined.

Lemma urlGetObject_local_path_witness :
  @urlGetObject Demo.collaborators "/tmp/_mocha_test_file.yaml"
    (Some Demo.options) Demo.world
  = (Resolved Demo.decoded,
     mkWorld (heap Demo.world) [ReadFile "/tmp/_mocha_test_file.yaml" ∅]).
Proof.
  exact (@urlGetObject_local_path Demo.collaborators
    "/tmp/_mocha_test_file.yaml" Demo.options Demo.world eq_refl).
Defined.

Lemma urlGetFirstObject_append_witness :
  (@urlGetFirstObject Demo.collaborators
     (IsArray (["/tmp/missing.yaml"] ++ ["/tmp/_mocha_test_file.yaml"]))
     (Some Demo.options) Demo.world).1
  = Resolved Demo.decoded.
Proof.
  rewrite (@urlGetFirstObject_append Demo.collaborators
    ["/tmp/missing.yaml"] ["/tmp/_mocha_test_file.yaml"] Demo.options
    Demo.world ltac:(discriminate)).
  vm_compute. reflexivity.
Defined.

Lemma urlGetFirstObject_local_candidates_witness :
  heap (@urlGetFirstObject Demo.collaborators
          (IsArray ["/tmp/missing.yaml"; "file:///tmp/_mocha_test_file.yaml"])
          (Some Demo.options) Demo.world).2
  = heap Demo.world.
Proof.
  apply (@urlGetFirstObject_local_candidates Demo.collaborators).
  repeat constructor.
Defined.

Lemma urlGetFirstObject_failure_leaves_uri_witness :
  fields_of Demo.options
    (@urlGetFirstObject Demo.collaborators
       (IsArray ["http://example.org/missing.yaml"; "/tmp/missing.yaml"])
       (Some Demo.options) Demo.world).2 !! "uri"
  = Some (JString "http://example.org/missing.yaml").
Proof.
  exact (@urlGetFirstObject_failure_leaves_uri Demo.collaborators
    (IsArray ["http://example.org/missing.yaml"; "/tmp/missing.yaml"])
    Demo.options Demo.world
    (Foreign (JString "ENOENT: /tmp/missing.yaml"))
    (fun _ _ _ => eq_refl) eq_refl).
Defined.

Lemma urlGetFirstObject_uri_reaches_next_read_witness :
  exists received,
    log (@urlGetFirstObject Demo.collaborators
           (IsArray ["http://example.org/missing.yaml"; "/tmp/missing.yaml"])
           (Some Demo.options) Demo.world).2
    = [HttpGet {[ "uri" := JString "http://example.org/missing.yaml" ]};
       ReadFile "/tmp/missing.yaml" received] /\
    received !! "uri" = Some (JString "http://example.org/missing.yaml").
Proof.
  eexists. split.
  - exact (@urlGetFirstObject_uri_reaches_next_read Demo.collaborators
      "http://example.org/missing.yaml" "/tmp/missing.yaml" Demo.options
      Demo.world (HTTPError (mkResponse 404 (JString "Not Found")))
      eq_refl eq_refl eq_refl).
  - vm_compute. reflexivity.
Defined.

Lemma urlGetFirstObject_singleton_witness :
  @urlGetFirstObject Demo.collaborators
    (IsArray ["http://example.org/doc.yaml"]) (Some Demo.options) Demo.world
  = @urlGetObject Demo.collaborators "http://example.org/doc.yaml"
      (Some Demo.options) Demo.world /\
  @urlGetFirstObject Demo.collaborators (IsArray ["file://a b/x"])
    (Some Demo.options) Demo.world
  = (Rejected (Foreign (JString "TypeError: Invalid URL")), Demo.world) /\
  @urlGetObject Demo.collaborators "file://a b/x" (Some Demo.options)
    Demo.world
  = (Rejected (Thrown (JString "TypeError: Invalid URL")), Demo.world).
Proof.
  split; [|split].
  - exact (proj2 (proj2 (@urlGetFirstObject_singleton Demo.collaborators
      "http://example.org/doc.yaml" Demo.options Demo.world)) eq_refl).
  - rewrite (proj1 (@urlGetFirstObject_singleton Demo.collaborators
      "file://a b/x" Demo.options Demo.world)).
    reflexivity.
  - reflexivity.
Defined.

Lemma uriGetFirstObject_single_base_witness :
  @uriGetFirstObject Demo.collaborators "doc" (IsArray [Some "http://example.org/"])
    (Some ".yaml") (Some Demo.options) Demo.world
  = @urlGetObject Demo.collaborators "http://example.org/doc.yaml"
      (Some Demo.options) Demo.world.
Proof.
  exact (proj2 (proj2 (@uriGetFirstObject_single_base Demo.collaborators
    "doc" (Some "http://example.org/") (Some ".yaml") Demo.options
    Demo.world)) eq_refl).
Defined.

Lemma uriGetFirstObject_qualified_witness :
  @uriGetFirstObject Demo.collaborators "http://example.org/missing.yaml"
    (IsArray [Some "/srv/app/"; Some "http://example.org/"]) None
    (Some Demo.options) Demo.world
  = @urlGetFirstObject Demo.collaborators
      (IsArray ["http://example.org/missing.yaml";
                "http://example.org/missing.yaml"])
      (Some Demo.options) Demo.world.
Proof.
  exact (@uriGetFirstObject_qualified Demo.collaborators
    "http://example.org/missing.yaml"
    (IsArray [Some "/srv/app/"; Some "http://example.org/"]) None
    Demo.options Demo.world eq_refl).
Defined.

Lemma default_options_are_fresh_witness :
  heap (@urlGet Demo.collaborators "http://example.org/doc.yaml" None
          Demo.world).2 !! Demo.options
  = Some ∅.
Proof.
  apply (proj1 (@default_options_are_fresh Demo.collaborators
    "http://example.org/doc.yaml" "" (IsArray []) (IsArray []) None
    Demo.world Demo.options ∅ eq_refl)).
Defined.
